(** * useSortBy: sort-criteria reducer and row ordering engine

    A shallow embedding of [src/plugin-hooks/useSortBy.js].

    - [toggleSortBy] is the state updater handed to [setState]: it maps the
      old list of sort criteria to the new one, or fails where the
      JavaScript throws (the column is looked up and destructured).
    - [sortData] is the recursive ordering of a row array.  Rows are
      JavaScript objects that are shared between the input array and the
      sorted array, and [row.subRows = sortData(row.subRows)] assigns a
      field of such an object; the embedding therefore works on an explicit
      object store ([Heap]) holding row objects and arrays by reference. *)

From Stdlib Require Import ZArith Lia.
From stdpp Require Import base option list gmap strings.

Local Open Scope Z_scope.

(** ** JavaScript values *)

(** Cell values are opaque to the hook: they are only handed to the
    comparators.  A missing key reads as [VUndefined]. *)
Inductive Value :=
| VUndefined
| VNull
| VBool (b : bool)
| VNum (n : Z)
| VStr (s : string).

(** The flags [desc], [sortDescFirst] and [sortInverted] are booleans that
    may be left undefined ([None]); conditions only see their truthiness. *)
Definition truthy (b : option bool) : bool := default false b.

(** [!x] on such a flag. *)
Definition not_ (b : option bool) : bool := negb (truthy b).

(** [a || b] on possibly undefined references: the first defined one. *)
Definition orElse {A} (a b : option A) : option A :=
  match a with
  | Some _ => a
  | None => b
  end.

(** Truthiness of a possibly undefined reference. *)
Definition isDefined {A} (a : option A) : bool :=
  match a with
  | Some _ => true
  | None => false
  end.

(** [Array.prototype.find]: the first element satisfying the predicate. *)
Definition find {A} (P : A → Prop) `{!∀ x, Decision (P x)} (l : list A) : option A :=
  snd <$> list_find P l.

(** [Array.prototype.findIndex]: the index of that element, or [-1]. *)
Definition findIndex {A} (P : A → Prop) `{!∀ x, Decision (P x)} (l : list A) : Z :=
  match list_find P l with
  | Some (i, _) => Z.of_nat i
  | None => -1
  end.

(** ** Data model *)

(** [(valueA, valueB, desc) => number] *)
Definition Comparator : Type := Value → Value → option bool → Z.

(** A column's [sortType]: unset, a registry key, or a comparator. *)
Inductive SortType :=
| SortTypeUnset
| SortTypeName (name : string)
| SortTypeFn (fn : Comparator).

Module Column.
Record t := mk {
  id : string;
  sortType : SortType;
  sortDescFirst : option bool;
  sortInverted : option bool;
}.
End Column.

(** One entry [{ id, desc }] of [state.sortBy]. *)
Module Sort.
Record t := mk {
  id : string;
  desc : option bool;
}.
End Sort.

(** References into the object store. *)
Abbreviation rloc := nat (only parsing).
Abbreviation aloc := nat (only parsing).

(** The array in which an [orderByFn] hands back its answer: one it has
    built, or the array it was given (a function that sorts its argument in
    place, as [arr.sort(...)] does, or that returns its argument). *)
Inductive Placement := NewArray | SameArray.

(** [orderByFn(arr, funcs, dirs)]: receives the array of row references,
    one row comparator per criterion and one direction flag per criterion.
    [order] gives the elements of the array it returns as a function of the
    elements it was given; [placement] tells which array that is.  Line 228
    uses the returned array as it is. *)
Record OrderByFn := {
  order :> list rloc → list (rloc → rloc → Z) → list (option bool) → list rloc;
  placement : Placement;
}.

(** The fields of [instance] that [useMain] reads.  [userSortTypes] holds
    the own properties of the user's registry object. *)
Record Instance := {
  columns : list Column.t;
  orderByFn : option OrderByFn;
  userSortTypes : option (gmap string Comparator);
  manualSorting : bool;
  disableSortRemove : bool;
  disableMultiRemove : bool;
  disableMultiSort : bool;
  sortBy : list Sort.t;
}.

(** ** Sort state reducer *)

Inductive Action := Replace | Add | Toggle | Remove.

Definition isToggle (a : Action) : bool :=
  match a with
  | Toggle => true
  | _ => false
  end.

(** Lines 103-118: what should we do with this sort action? *)
Definition classify (inst : Instance) (sortBy : list Sort.t)
    (columnID : string) (multi : bool) : Action :=
  let existingSortBy := find (λ d, Sort.id d = columnID) sortBy in
  let existingIndex := findIndex (λ d, Sort.id d = columnID) sortBy in
  if negb (disableMultiSort inst) && multi then
    if isDefined existingSortBy then Toggle else Add
  else
    if negb (existingIndex =? Z.of_nat (length sortBy) - 1) then Replace
    else if isDefined existingSortBy then Toggle
    else Replace.

(** Lines 121-131: toggle states that will remove the sortBy.  The
    conjunction is evaluated left to right; its last operand reads
    [existingSortBy.desc], which throws when [existingSortBy] is undefined. *)
Definition resolve (inst : Instance) (sortDescFirst : option bool)
    (sortBy : list Sort.t) (columnID : string) (desc : option bool)
    (multi : bool) : option Action :=
  let existingSortBy := find (λ d, Sort.id d = columnID) sortBy in
  let hasDescDefined := isDefined desc in
  let action := classify inst sortBy columnID multi in
  if isToggle action
     && negb (disableSortRemove inst)
     && negb hasDescDefined
     && (if multi then negb (disableMultiRemove inst) else true)
  then
    e ← existingSortBy;
    Some (if (truthy (Sort.desc e) && not_ sortDescFirst)
             || (not_ (Sort.desc e) && truthy sortDescFirst)
          then Remove else action)
  else Some action.

(** Lines 133-161: the new list for the resolved action. *)
Definition apply (action : Action) (sortDescFirst : option bool)
    (sortBy : list Sort.t) (columnID : string) (desc : option bool)
    : option (list Sort.t) :=
  let existingSortBy := find (λ d, Sort.id d = columnID) sortBy in
  let hasDescDefined := isDefined desc in
  match action with
  | Replace =>
      Some [Sort.mk columnID (if hasDescDefined then desc else sortDescFirst)]
  | Add =>
      Some (sortBy ++
              [Sort.mk columnID (if hasDescDefined then desc else sortDescFirst)])
  | Toggle =>
      mapM (λ d,
          if decide (Sort.id d = columnID) then
            if hasDescDefined then Some (Sort.mk (Sort.id d) desc)
            else e ← existingSortBy;
                 Some (Sort.mk (Sort.id d) (Some (not_ (Sort.desc e))))
          else Some d) sortBy
  | Remove =>
      Some (filter (λ d, Sort.id d ≠ columnID) sortBy)
  end.

(** The updater passed to [setState] by [toggleSortBy(columnID, desc, multi)],
    as a function of the old [sortBy]; the other fields of the state are
    copied unchanged by [...old]. *)
Definition toggleSortBy (inst : Instance) (columnID : string)
    (desc : option bool) (multi : bool) (old : list Sort.t)
    : option (list Sort.t) :=
  column ← find (λ d, Column.id d = columnID) (columns inst);
  let sortDescFirst := Column.sortDescFirst column in
  action ← resolve inst sortDescFirst old columnID desc multi;
  apply action sortDescFirst old columnID desc.

(** ** Rows and the object store *)

(** A row object [{ values, subRows }]; [subRows] is undefined or a
    reference to an array of rows. *)
Record RowObj := {
  values : gmap string Value;
  subRows : option aloc;
}.

(** Row objects and arrays, each addressed by its index. *)
Record Heap := {
  rowObjs : list RowObj;
  arrays : list (list rloc);
}.

(** [row.values[id]] *)
Definition valueAt (h : Heap) (row : rloc) (id : string) : Value :=
  match rowObjs h !! row with
  | Some o => default VUndefined (values o !! id)
  | None => VUndefined
  end.

(** Allocation of a fresh array holding [elems]. *)
Definition newArray (h : Heap) (elems : list rloc) : Heap * aloc :=
  ({| rowObjs := rowObjs h; arrays := arrays h ++ [elems] |},
   length (arrays h)).

(** The elements of the array [a] are replaced by [elems]. *)
Definition setArray (h : Heap) (a : aloc) (elems : list rloc) : Heap :=
  {| rowObjs := rowObjs h; arrays := <[a := elems]> (arrays h) |}.

(** The store after [orderByFn] has answered [elems] for the array [rows],
    and the array it returns. *)
Definition storeAnswer (fn : OrderByFn) (h : Heap) (rows : aloc)
    (elems : list rloc) : Heap * aloc :=
  match placement fn with
  | NewArray => newArray h elems
  | SameArray => (setArray h rows elems, rows)
  end.

(** [row.subRows = a] *)
Definition setSubRows (h : Heap) (row : rloc) (a : aloc) : Heap :=
  {| rowObjs :=
       alter (λ o, {| values := values o; subRows := Some a |}) row (rowObjs h);
     arrays := arrays h |}.

(** ** Comparator resolution *)

(** Modelled from the spec: the module [../sortTypes] (the built-in
    comparator registry) is not among the sources.  It is a mapping from
    names to comparators that contains the default comparator under the
    name [alphanumeric].

    The record also carries what the JavaScript runtime contributes to
    line 243: [objectPrototype] holds the properties that every plain
    object inherits from [Object.prototype] ([toString], [constructor],
    [hasOwnProperty], ...), as the functions that [sortMethod] would call.
    It is a parameter of the model as well. *)
Record SortTypes := {
  alphanumeric : Comparator;
  named : gmap string Comparator;
  objectPrototype : gmap string Comparator;
}.

(** [sortTypes[key]] *)
Definition builtin (sortTypes : SortTypes) (key : string) : option Comparator :=
  if decide (key = "alphanumeric") then Some (alphanumeric sortTypes)
  else named sortTypes !! key.

(** Modelled from the spec: the helper [isFunction] of [../utils] is not
    among the sources.  It answers its argument when that is a function
    and undefined otherwise. *)
Definition isFunction (sortType : SortType) : option Comparator :=
  match sortType with
  | SortTypeFn fn => Some fn
  | _ => None
  end.

(** The property key [sortType] is coerced to when it indexes a registry.
    A function is never used as a key: [isFunction] has answered before. *)
Definition propertyKey (sortType : SortType) : option string :=
  match sortType with
  | SortTypeUnset => Some "undefined"
  | SortTypeName name => Some name
  | SortTypeFn _ => None
  end.

(** [object[key]] on a plain object whose own properties are [own]: an own
    property first, then the one inherited from [Object.prototype]. *)
Definition getProperty (sortTypes : SortTypes) (own : gmap string Comparator)
    (key : string) : option Comparator :=
  orElse (own !! key) (objectPrototype sortTypes !! key).

(** Lines 241-245.  [userSortTypes || {}] is the user's registry, or an
    empty object literal; both are plain objects.  [sortTypes] is a module
    namespace and inherits nothing. *)
Definition sortMethod (sortTypes : SortTypes) (inst : Instance)
    (sortType : SortType) : Comparator :=
  default (alphanumeric sortTypes)
    (orElse (isFunction sortType)
       (orElse (key ← propertyKey sortType;
                getProperty sortTypes (default ∅ (userSortTypes inst)) key)
               (key ← propertyKey sortType; builtin sortTypes key))).

(** Lines 230-250: the row comparator of one criterion. *)
Definition sortFn (sortTypes : SortTypes) (inst : Instance) (h : Heap)
    (sort : Sort.t) : option (rloc → rloc → Z) :=
  column ← find (λ d, Column.id d = Sort.id sort) (columns inst);
  let sortMethod := sortMethod sortTypes inst (Column.sortType column) in
  Some (λ a b, sortMethod (valueAt h a (Sort.id sort))
                          (valueAt h b (Sort.id sort)) (Sort.desc sort)).

(** Lines 252-261: the direction flag of one criterion. *)
Definition direction (inst : Instance) (sort : Sort.t) : option (option bool) :=
  column ← find (λ d, Column.id d = Sort.id sort) (columns inst);
  Some (if truthy (Column.sortInverted column) then Sort.desc sort
        else Some (not_ (Sort.desc sort))).

(** ** Multi-key composition *)

(** Modelled from the spec: [defaultOrderByFn] of [../utils] is not among
    the sources.  Rows are ordered by the criteria in list order, the first
    criterion being primary and the following ones breaking ties from left
    to right; a criterion whose direction flag is falsy orders in reverse.
    The composition is a stable sort that builds a new array (the spec:
    sibling arrays are rebuilt). *)
Fixpoint composeFns {A} (funcs : list (A → A → Z)) (dirs : list (option bool))
    (a b : A) : Z :=
  match funcs, dirs with
  | f :: funcs', d :: dirs' =>
      let s := f a b in
      if s =? 0 then composeFns funcs' dirs' a b
      else if truthy d then s else - s
  | _, _ => 0
  end.

Fixpoint insertBy {A} (cmp : A → A → Z) (x : A) (l : list A) : list A :=
  match l with
  | [] => [x]
  | y :: l' => if cmp x y <=? 0 then x :: l else y :: insertBy cmp x l'
  end.

Definition stableSort {A} (cmp : A → A → Z) (l : list A) : list A :=
  foldr (insertBy cmp) [] l.

Definition defaultOrderByFn : OrderByFn :=
  {| order := λ arr funcs dirs, stableSort (composeFns funcs dirs) arr;
     placement := NewArray |}.

(** ** Row ordering engine *)

(** Lines 228-262: the elements of the array that [orderByFn] returns for
    one level. *)
Definition orderLevel (sortTypes : SortTypes) (inst : Instance) (h : Heap)
    (rows : list rloc) : option (list rloc) :=
  funcs ← mapM (sortFn sortTypes inst h) (sortBy inst);
  dirs ← mapM (direction inst) (sortBy inst);
  Some (default defaultOrderByFn (orderByFn inst) rows funcs dirs).

(** [arr.forEach(f)] with a callback that updates the store and may throw.
    The indices below the length that the array has when the loop starts
    are visited in order; an element is read when its turn comes, and an
    index that the array no longer has is skipped. *)
Fixpoint forEachFrom (f : Heap → rloc → option Heap) (arr : aloc)
    (todo k : nat) (h : Heap) : option Heap :=
  match todo with
  | O => Some h
  | S todo' =>
      match arrays h !! arr ≫= (λ l, l !! k) with
      | Some row => h' ← f h row; forEachFrom f arr todo' (S k) h'
      | None => forEachFrom f arr todo' (S k) h
      end
  end.

Definition forEach (f : Heap → rloc → option Heap) (arr : aloc) (h : Heap)
    : option Heap :=
  l ← arrays h !! arr; forEachFrom f arr (length l) 0 h.

(** Lines 265-270: the callback of [sortedData.forEach], given the
    recursive call. *)
Definition sortSubRows (sortData : Heap → aloc → option (Heap * aloc))
    (h : Heap) (row : rloc) : option Heap :=
  obj ← rowObjs h !! row;
  match subRows obj with
  | None => Some h
  | Some sub =>
      '(h', sub') ← sortData h sub;
      Some (setSubRows h' row sub')
  end.

(** Lines 224-273.  The loop of line 264 runs over the array that
    [orderByFn] returned, and line 272 returns that array.  [fuel] bounds
    the nesting depth of the recursion (a store can hold a row that is its
    own descendant); [None] is a thrown exception or exhausted fuel. *)
Fixpoint sortData (sortTypes : SortTypes) (inst : Instance) (fuel : nat)
    (h : Heap) (rows : aloc) : option (Heap * aloc) :=
  match fuel with
  | O => None
  | S fuel' =>
      arr ← arrays h !! rows;
      sorted ← orderLevel sortTypes inst h arr;
      let '(h1, sortedData) :=
        storeAnswer (default defaultOrderByFn (orderByFn inst)) h rows sorted in
      h2 ← forEach (sortSubRows (sortData sortTypes inst fuel')) sortedData h1;
      Some (h2, sortedData)
  end.

(** Lines 216-220 and 278: the memoised computation of [sortedRows]. *)
Definition sortedRows (sortTypes : SortTypes) (inst : Instance) (fuel : nat)
    (h : Heap) (rows : aloc) : option (Heap * aloc) :=
  if manualSorting inst || (length (sortBy inst) =? 0)%nat then Some (h, rows)
  else sortData sortTypes inst fuel h rows.

(** ** Specification vocabulary *)

(** What a call may have done to a row object: the values are the same, and
    [subRows] is the same or, for a row that owned sub-rows, refers to an
    array allocated since. *)
Definition rowKept (h h' : Heap) (o o' : RowObj) : Prop :=
  values o' = values o
  ∧ (subRows o' = subRows o
     ∨ is_Some (subRows o)
       ∧ ∃ a', subRows o' = Some a'
               ∧ (length (arrays h) ≤ a' < length (arrays h'))%nat).

(** [extends h h']: every array of [h] is an array of [h'] with the same
    elements, and the rows are the same objects, kept as above. *)
Definition extends (h h' : Heap) : Prop :=
  arrays h `prefix_of` arrays h'
  ∧ Forall2 (rowKept h h') (rowObjs h) (rowObjs h').

(** The comparison of two rows under all criteria, as the built-in
    composition computes it. *)
Definition rowCompare (sortTypes : SortTypes) (inst : Instance) (h : Heap)
    : option (rloc → rloc → Z) :=
  funcs ← mapM (sortFn sortTypes inst h) (sortBy inst);
  dirs ← mapM (direction inst) (sortBy inst);
  Some (composeFns funcs dirs).

(** The callback applied to the rows [rows], in order. *)
Fixpoint visit (f : Heap → rloc → option Heap) (rows : list rloc) (h : Heap)
    : option Heap :=
  match rows with
  | [] => Some h
  | row :: rows' => h' ← f h row; visit f rows' h'
  end.

(** The [orderByFn] in use builds a new array, as the built-in one does. *)
Definition buildsNewArray (inst : Instance) : Prop :=
  placement (default defaultOrderByFn (orderByFn inst)) = NewArray.

(** What is known of a successful call that builds new arrays. *)
Definition callSpec (sortTypes : SortTypes) (inst : Instance)
    (h : Heap) (rows : aloc) (h' : Heap) (out : aloc) : Prop :=
  extends h h'
  ∧ out = length (arrays h)
  ∧ ∃ arr sorted,
      arrays h !! rows = Some arr
      ∧ orderLevel sortTypes inst h arr = Some sorted
      ∧ arrays h' !! out = Some sorted.

(** Every [subRows] that the rows [rows] hold in [h] refers to an array
    allocated after the first [n] ones. *)
Definition subRowsSince (n : nat) (h : Heap) (rows : list rloc) : Prop :=
  ∀ r o a, r ∈ rows → rowObjs h !! r = Some o → subRows o = Some a →
           (n ≤ a)%nat.

(** ** Row forests

    The shape of the rows reachable from an array, used to state what
    [sortData] does to a store in which every row has one owner. *)

#[local] Unset Elimination Schemes.

Inductive Tree := Node (row : rloc) (sub : option (list Tree)).

Definition root (t : Tree) : rloc :=
  match t with
  | Node row _ => row
  end.

(** The rows of a tree, its root first. *)
Fixpoint rowsOf (t : Tree) : list rloc :=
  match t with
  | Node row sub =>
      row :: match sub with
             | None => []
             | Some ts => ts ≫= rowsOf
             end
  end.

(** The number of nested [sortData] calls a row's sub-rows need. *)
Fixpoint depth (t : Tree) : nat :=
  match t with
  | Node _ None => O
  | Node _ (Some ts) => S (max_list (depth <$> ts))
  end.

Definition height (ts : list Tree) : nat := S (max_list (depth <$> ts)).

(** [reprNode h t]: the store [h] holds the tree [t] at row [root t]. *)
Inductive reprNode (h : Heap) : Tree → Prop :=
| repr_leaf row obj :
    rowObjs h !! row = Some obj →
    subRows obj = None →
    reprNode h (Node row None)
| repr_inner row obj a ts :
    rowObjs h !! row = Some obj →
    subRows obj = Some a →
    arrays h !! a = Some (root <$> ts) →
    Forall (reprNode h) ts →
    reprNode h (Node row (Some ts)).

#[local] Set Elimination Schemes.

(** [repr h a ts]: the array [a] of [h] holds the forest [ts]. *)
Definition repr (h : Heap) (a : aloc) (ts : list Tree) : Prop :=
  arrays h !! a = Some (root <$> ts) ∧ Forall (reprNode h) ts.

(** Every row of the forest has exactly one owner. *)
Definition forest (h : Heap) (a : aloc) (ts : list Tree) : Prop :=
  repr h a ts ∧ NoDup (ts ≫= rowsOf).

(** The ordering of a forest in the words of the spec: a level is ordered by
    the comparison [cmp] of its own rows, and the same ordering is applied
    to the sub-rows of every row that owns sub-rows. *)
Fixpoint orderTree (cmp : rloc → rloc → Z) (t : Tree) : Tree :=
  match t with
  | Node row sub =>
      Node row
        ((λ ts, stableSort (λ a b, cmp (root a) (root b)) (orderTree cmp <$> ts))
           <$> sub)
  end.

Definition orderForest (cmp : rloc → rloc → Z) (ts : list Tree) : list Tree :=
  stableSort (λ a b, cmp (root a) (root b)) (orderTree cmp <$> ts).

(** [x] occurs before [y] in [l]. *)
Definition before {A} (x y : A) (l : list A) : Prop :=
  ∃ l1 l2 l3, l = l1 ++ x :: l2 ++ y :: l3.

(** The sub-rows of a row as the store presents them. *)
Definition subRowsOf (h : Heap) (row : rloc) : option (list rloc) :=
  obj ← rowObjs h !! row; a ← subRows obj; arrays h !! a.

(** The criterion found for [columnID] is the last element of the list. *)
Definition existingIsLast (columnID : string) (old : list Sort.t) : Prop :=
  ∃ pre e, old = pre ++ [e] ∧ Sort.id e = columnID
           ∧ Forall (λ d, Sort.id d ≠ columnID) pre.

(** [n] successive calls of [toggleSortBy(columnID, desc, multi)]. *)
Definition toggles (inst : Instance) (columnID : string) (desc : option bool)
    (multi : bool) (n : nat) (start : list Sort.t) : option (list Sort.t) :=
  Nat.iter n (λ s, s ≫= toggleSortBy inst columnID desc multi) (Some start).

(** ** Column decoration

    Lines 171-214 decorate every column and header of the instance. *)

(** Lines 174-180.  [accessor] is the truthiness of [column.accessor];
    [columnDisableSorting] and [disableSorting] tell whether the column's
    and the table's [disableSorting] are [=== true].  The helper
    [getFirstDefined] of [../utils] is not among the sources and is taken
    as a parameter. *)
Definition canSort (getFirstDefined : list (option bool) → option bool)
    (accessor columnDisableSorting disableSorting : bool) : option bool :=
  if accessor then
    getFirstDefined
      [ (if columnDisableSorting then Some false else None);
        (if disableSorting then Some false else None);
        Some true ]
  else Some false.

(** The first of the arguments that is not undefined. *)
Definition firstDefined {A} (args : list (option A)) : option A :=
  head (omap id args).

(** Lines 184-187: [column.toggleSortBy], as this loop leaves it on a
    column that had none. *)
Definition columnToggleSortBy (inst : Instance) (canSort : option bool)
    (id : string)
    : option (option bool → bool → list Sort.t → option (list Sort.t)) :=
  if truthy canSort then Some (λ desc multi, toggleSortBy inst id desc multi)
  else None.

(** Lines 192-200: the [onClick] of [getSortByToggleProps], as a function
    of [e.shiftKey]; it calls [column.toggleSortBy]. *)
Definition onClick (inst : Instance) (canSort : option bool) (id : string)
    : option (bool → list Sort.t → option (list Sort.t)) :=
  if truthy canSort then
    Some (λ shiftKey old,
        toggle ← columnToggleSortBy inst canSort id;
        toggle None (negb (disableMultiSort inst) && shiftKey) old)
  else None.

(** Lines 211-213: the status of a column under the criteria [sortBy]. *)
Definition sorted (sortBy : list Sort.t) (id : string) : option Sort.t :=
  find (λ d, Sort.id d = id) sortBy.

Definition sortedIndex (sortBy : list Sort.t) (id : string) : Z :=
  findIndex (λ d, Sort.id d = id) sortBy.

Definition sortedDesc (sortBy : list Sort.t) (id : string) : option bool :=
  match sorted sortBy id with
  | Some s => Sort.desc s
  | None => None
  end.

(** The instance with another [disableMultiRemove]. *)
Definition withMultiRemove (inst : Instance) (off : bool) : Instance :=
  {| columns := columns inst;
     orderByFn := orderByFn inst;
     userSortTypes := userSortTypes inst;
     manualSorting := manualSorting inst;
     disableSortRemove := disableSortRemove inst;
     disableMultiRemove := off;
     disableMultiSort := disableMultiSort inst;
     sortBy := sortBy inst |}.

(** Lines 283-288: the rows that [useMain] returns. *)
Module Main.
Record t := mk {
  rows : nat;
  preSortedRows : nat;
}.
End Main.

Definition useMain (sortTypes : SortTypes) (inst : Instance) (fuel : nat)
    (h : Heap) (rows : aloc) : option (Heap * Main.t) :=
  '(h', sortedRows) ← sortedRows sortTypes inst fuel h rows;
  Some (h', Main.mk sortedRows rows).

(** [t] is a tree of the forest [ts], at any depth. *)
Inductive subtree (t : Tree) : list Tree → Prop :=
| subtree_here ts : t ∈ ts → subtree t ts
| subtree_below row ks ts :
    Node row (Some ks) ∈ ts → subtree t ks → subtree t ts.

(** ** Example data *)

Definition colA : Column.t := Column.mk "A" SortTypeUnset (Some false) None.
Definition colB : Column.t := Column.mk "B" SortTypeUnset None (Some true).

Definition table (removeOff multiOff : bool) : Instance :=
  {| columns := [colA; colB];
     orderByFn := None;
     userSortTypes := None;
     manualSorting := false;
     disableSortRemove := removeOff;
     disableMultiRemove := false;
     disableMultiSort := multiOff;
     sortBy := [Sort.mk "A" (Some false)] |}.

Definition byNumber : Comparator :=
  λ a b _,
    match a, b with
    | VNum x, VNum y => x - y
    | _, _ => 0
    end.

(** A comparator that answers the direction it is called with. *)
Definition probe : Comparator := λ _ _ desc, if truthy desc then 1 else 0.

(** The comparison of [byNumber], reversed. *)
Definition byNumberReversed : Comparator := λ a b desc, byNumber b a desc.

(** Stands for [Object.prototype.toString] called as a comparator. *)
Definition objectToString : Comparator := λ _ _ _, 1.

Definition builtins : SortTypes :=
  {| alphanumeric := byNumber;
     named := {["basic" := byNumber; "reversed" := byNumberReversed]};
     objectPrototype := {["toString" := objectToString]} |}.

Definition colInverted : Column.t :=
  Column.mk "A" (SortTypeFn probe) None (Some true).

Definition invertedTable : Instance :=
  {| columns := [colInverted];
     orderByFn := None;
     userSortTypes := None;
     manualSorting := false;
     disableSortRemove := false;
     disableMultiRemove := false;
     disableMultiSort := false;
     sortBy := [Sort.mk "A" (Some false)] |}.

Definition manualTable : Instance :=
  {| columns := [colA; colB];
     orderByFn := None;
     userSortTypes := Some {["basic" := probe]};
     manualSorting := true;
     disableSortRemove := false;
     disableMultiRemove := false;
     disableMultiSort := false;
     sortBy := [Sort.mk "A" (Some false)] |}.

(** A row whose column [A] holds the number [v]. *)
Definition rowA (v : Z) (sub : option aloc) : RowObj :=
  {| values := {["A" := VNum v]}; subRows := sub |}.

(** Two top-level rows; row [0] owns the sub-rows [2] and [3], which are
    out of order. *)
Definition store : Heap :=
  {| rowObjs := [rowA 2 (Some 1%nat); rowA 1 None; rowA 5 None; rowA 3 None];
     arrays := [[0; 1]%nat; [2; 3]%nat] |}.

(** The store after [store] has been ordered by column [A], ascending. *)
Definition storeSorted : Heap :=
  {| rowObjs := [rowA 2 (Some 3%nat); rowA 1 None; rowA 5 None; rowA 3 None];
     arrays := [[0; 1]%nat; [2; 3]%nat; [1; 0]%nat; [3; 2]%nat] |}.

(** Rows [0] and [2] have equal keys; row [1] sorts before both. *)
Definition tieStore : Heap :=
  {| rowObjs := [rowA 2 None; rowA 1 None; rowA 2 None];
     arrays := [[0; 1; 2]%nat] |}.

Definition tieSorted : Heap :=
  {| rowObjs := [rowA 2 None; rowA 1 None; rowA 2 None];
     arrays := [[0; 1; 2]%nat; [1; 0; 2]%nat] |}.

Definition storeForest : list Tree :=
  [Node 0%nat (Some [Node 2%nat None; Node 3%nat None]); Node 1%nat None].

(** The comparison of two rows of [store] under the criteria of [table]. *)
Definition storeCompare : nat → nat → Z :=
  default (λ _ _, 0) (rowCompare builtins (table false false) store).

(** A stable sort that rearranges the array it is given, in the way of
    [arr.sort(...)], and returns it. *)
Definition sortInPlace : OrderByFn :=
  {| order := λ arr funcs dirs, stableSort (composeFns funcs dirs) arr;
     placement := SameArray |}.

(** [table] with [orderByFn] overridden by [sortInPlace]. *)
Definition tableInPlace : Instance :=
  {| columns := [colA; colB];
     orderByFn := Some sortInPlace;
     userSortTypes := None;
     manualSorting := false;
     disableSortRemove := false;
     disableMultiRemove := false;
     disableMultiSort := false;
     sortBy := [Sort.mk "A" (Some false)] |}.

(** [store] and [tieStore] after they have been ordered in place. *)
Definition storeSortedInPlace : Heap :=
  {| rowObjs := [rowA 2 (Some 1%nat); rowA 1 None; rowA 5 None; rowA 3 None];
     arrays := [[1; 0]%nat; [3; 2]%nat] |}.

Definition tieSortedInPlace : Heap :=
  {| rowObjs := [rowA 2 None; rowA 1 None; rowA 2 None];
     arrays := [[1; 0; 2]%nat] |}.

(** An [orderByFn] that returns its argument. *)
Definition returnArgument : OrderByFn :=
  {| order := λ arr _ _, arr; placement := SameArray |}.

Definition tableUnordered : Instance :=
  {| columns := [colA; colB];
     orderByFn := Some returnArgument;
     userSortTypes := None;
     manualSorting := false;
     disableSortRemove := false;
     disableMultiRemove := false;
     disableMultiSort := false;
     sortBy := [Sort.mk "A" (Some false)] |}.


(** [table] with column [A] inverted and the criterion descending. *)
Definition colAInverted : Column.t :=
  Column.mk "A" SortTypeUnset (Some false) (Some true).

Definition tableInverted : Instance :=
  {| columns := [colAInverted; colB];
     orderByFn := None;
     userSortTypes := None;
     manualSorting := false;
     disableSortRemove := false;
     disableMultiRemove := false;
     disableMultiSort := false;
     sortBy := [Sort.mk "A" (Some true)] |}.

(** A criterion that names no column. *)
Definition tableUnknown : Instance :=
  {| columns := [colA; colB];
     orderByFn := None;
     userSortTypes := None;
     manualSorting := false;
     disableSortRemove := false;
     disableMultiRemove := false;
     disableMultiSort := false;
     sortBy := [Sort.mk "A" (Some false); Sort.mk "C" None] |}.

(** Multi-sort and multi-remove both disabled. *)
Definition tableSingle : Instance :=
  {| columns := [colA; colB];
     orderByFn := None;
     userSortTypes := None;
     manualSorting := false;
     disableSortRemove := false;
     disableMultiRemove := true;
     disableMultiSort := true;
     sortBy := [] |}.

(** * Sanity checks *)

Example toggle_first_click :
  toggleSortBy (table false false) "A" None false []
  = Some [Sort.mk "A" (Some false)].
Proof. reflexivity. Qed.

(** [sortDescFirst] is not set on column [B]: the criterion is created
    with an undefined [desc]. *)
Example toggle_first_click_unset :
  toggleSortBy (table false false) "B" None false []
  = Some [Sort.mk "B" None].
Proof. reflexivity. Qed.

Example toggle_explicit_desc :
  toggleSortBy (table false false) "A" (Some true) false
    [Sort.mk "A" (Some true)]
  = Some [Sort.mk "A" (Some true)].
Proof. reflexivity. Qed.

(** An unknown column: [column] is undefined and destructuring it throws. *)
Example toggle_unknown_column :
  toggleSortBy (table false false) "C" None false [] = None.
Proof. reflexivity. Qed.

Example sortData_store :
  sortData builtins (table false false) 2 store 0%nat
  = Some (storeSorted, 2%nat).
Proof. vm_compute. reflexivity. Qed.

(** The nesting of [store] is two levels deep. *)
Example sortData_store_shallow :
  sortData builtins (table false false) 1 store 0%nat = None.
Proof. vm_compute. reflexivity. Qed.

(** An [orderByFn] that sorts in place leaves no new array: the input
    array and the [subRows] array of row [0] are rearranged. *)
Example sortData_store_in_place :
  sortData builtins tableInPlace 2 store 0%nat
  = Some (storeSortedInPlace, 0%nat).
Proof. vm_compute. reflexivity. Qed.

(** With an [orderByFn] that returns its argument, [rows] is
    [preSortedRows] and the store is as it was. *)
Example useMain_returnArgument :
  useMain builtins tableUnordered 2 store 0%nat
  = Some (store, Main.mk 0 0).
Proof. vm_compute. reflexivity. Qed.

(** [toString] is no entry of any registry, but every plain object
    inherits it. *)
Example sortMethod_toString :
  sortMethod builtins (table false false) (SortTypeName "toString")
  = objectToString.
Proof. reflexivity. Qed.

(** * Properties of the reducer *)

Section find_facts.
Context {A : Type} (P : A → Prop) `{!∀ x, Decision (P x)}.

Lemma find_nil : find P [] = None.
Proof. reflexivity. Qed.

Lemma find_cons x l :
  find P (x :: l) = if decide (P x) then Some x else find P l.
Proof.
  unfold find. cbn. destruct (decide (P x)); [done|].
  by destruct (list_find P l) as [[i y]|].
Qed.

Lemma findIndex_cons x l :
  findIndex P (x :: l) =
    if decide (P x) then 0
    else match find P l with
         | Some _ => findIndex P l + 1
         | None => -1
         end.
Proof.
  unfold findIndex, find. cbn. destruct (decide (P x)); [done|].
  destruct (list_find P l) as [[i y]|]; cbn; [lia|done].
Qed.

Lemma find_None l : find P l = None ↔ Forall (λ x, ¬ P x) l.
Proof.
  induction l as [|y l IH]; rewrite ?find_cons; [done|].
  rewrite Forall_cons, <- IH. destruct (decide (P y)); intuition congruence.
Qed.

Lemma find_Some l x :
  find P l = Some x ↔
  ∃ pre post, l = pre ++ x :: post ∧ P x ∧ Forall (λ y, ¬ P y) pre.
Proof.
  induction l as [|y l IH]; rewrite ?find_nil, ?find_cons.
  - split; [done|]. intros (pre & post & E & _). by destruct pre.
  - destruct (decide (P y)) as [Hy|Hy].
    + split.
      * intros [= ->]. by exists [], l.
      * intros ([|z pre] & post & E & Hx & Hpre); simplify_eq/=; [done|].
        by inversion Hpre.
    + rewrite IH. split.
      * intros (pre & post & -> & Hx & Hpre). exists (y :: pre), post.
        split_and!; [done..|]. by constructor.
      * intros ([|z pre] & post & E & Hx & Hpre); simplify_eq/=; [done|].
        inversion Hpre; subst. by exists pre, post.
Qed.

Lemma findIndex_bounds l :
  match find P l with
  | Some _ => 0 ≤ findIndex P l < Z.of_nat (length l)
  | None => findIndex P l = -1
  end.
Proof.
  induction l as [|y l IH]; [done|].
  rewrite find_cons, findIndex_cons. cbn [length].
  destruct (decide (P y)); [lia|].
  destruct (find P l); lia.
Qed.

Lemma findIndex_split pre x post :
  P x → Forall (λ y, ¬ P y) pre →
  findIndex P (pre ++ x :: post) = Z.of_nat (length pre).
Proof.
  intros Hx. induction 1 as [|y pre Hy Hpre IH]; cbn [app length].
  - rewrite findIndex_cons. by rewrite decide_True.
  - rewrite findIndex_cons, decide_False by done.
    assert (find P (pre ++ x :: post) = Some x) as ->.
    { apply find_Some. by exists pre, post. }
    lia.
Qed.

End find_facts.

Section reducer.
Context (inst : Instance) (columnID : string).

#[local] Abbreviation existing old := (find (λ d, Sort.id d = columnID) old).
#[local] Abbreviation existingIsLast old := (existingIsLast columnID old).

Lemma classify_Toggle_existing old multi :
  classify inst old columnID multi = Toggle → is_Some (existing old).
Proof.
  unfold classify. destruct (existing old); [by eauto|].
  by repeat case_match.
Qed.

Lemma classify_single old multi :
  negb (disableMultiSort inst) && multi = false →
  (existingIsLast old → classify inst old columnID multi = Toggle)
  ∧ (¬ existingIsLast old → classify inst old columnID multi = Replace).
Proof.
  intros Hsingle. unfold classify. rewrite Hsingle.
  destruct (existing old) as [e|] eqn:He.
  - apply find_Some in He as (pre & post & -> & Hid & Hpre).
    rewrite findIndex_split by done. rewrite length_app.
    destruct post as [|d post]; cbn [length].
    + rewrite (proj2 (Z.eqb_eq _ _)) by lia. cbn. split; [done|].
      intros []. by exists pre, e.
    + rewrite (proj2 (Z.eqb_neq _ _)) by lia. cbn. split; [|done].
      intros (pre' & e' & E & Hid' & Hpre').
      pose proof (findIndex_split (λ d, Sort.id d = columnID)
                    pre e (d :: post) Hid Hpre) as H1.
      pose proof (findIndex_split (λ d, Sort.id d = columnID)
                    pre' e' [] Hid' Hpre') as H2.
      rewrite E, H2 in H1. apply (f_equal length) in E.
      rewrite !length_app in E. cbn in E. lia.
  - pose proof (findIndex_bounds (λ d, Sort.id d = columnID) old) as Hi.
    rewrite He in Hi. rewrite Hi. cbn.
    split; [|by repeat case_match].
    intros (pre & e & -> & Hid & _). apply find_None in He.
    apply Forall_app in He as [_ He]. by inversion He.
Qed.

Lemma apply_Toggle sortDescFirst old desc e :
  existing old = Some e →
  apply Toggle sortDescFirst old columnID desc =
    Some ((λ d, if decide (Sort.id d = columnID)
                then Sort.mk (Sort.id d)
                       (if isDefined desc then desc
                        else Some (not_ (Sort.desc e)))
                else d) <$> old).
Proof.
  intros He. unfold apply. rewrite He. generalize old. intros l.
  induction l as [|d l IH]; [done|]. cbn in *. rewrite IH.
  by destruct (decide _), desc.
Qed.

(** A toggle in single mode on the empty list. *)
Lemma toggle_single_nil column desc multi :
  negb (disableMultiSort inst) && multi = false →
  find (λ d, Column.id d = columnID) (columns inst) = Some column →
  toggleSortBy inst columnID desc multi [] =
    Some [Sort.mk columnID
            (if isDefined desc then desc else Column.sortDescFirst column)].
Proof.
  intros Hsingle Hcol. unfold toggleSortBy, resolve, classify.
  rewrite Hcol, Hsingle. reflexivity.
Qed.

(** A toggle without direction in single mode on the list that holds the
    criterion of the column only. *)
Lemma toggle_single_singleton column multi d :
  negb (disableMultiSort inst) && multi = false →
  find (λ d, Column.id d = columnID) (columns inst) = Some column →
  toggleSortBy inst columnID None multi [Sort.mk columnID d] =
    Some (if negb (disableSortRemove inst)
             && (if multi then negb (disableMultiRemove inst) else true)
             && ((truthy d && not_ (Column.sortDescFirst column))
                 || (not_ d && truthy (Column.sortDescFirst column)))
          then []
          else [Sort.mk columnID (Some (not_ d))]).
Proof.
  intros Hsingle Hcol. unfold toggleSortBy, resolve.
  destruct (classify_single [Sort.mk columnID d] multi Hsingle) as [Hc _].
  rewrite Hc by (by exists [], (Sort.mk columnID d)).
  rewrite Hcol. cbn [mbind option_bind isToggle isDefined negb andb].
  assert (existing [Sort.mk columnID d] = Some (Sort.mk columnID d)) as He.
  { rewrite find_cons. cbn. by rewrite decide_True. }
  rewrite He. cbn [Sort.desc].
  destruct (disableSortRemove inst), multi, (disableMultiRemove inst);
    cbn [negb andb mbind option_bind];
    try (destruct (_ || _); cbn [mbind option_bind]);
    first [ erewrite apply_Toggle by exact He; cbn; by rewrite decide_True
          | unfold apply; rewrite filter_cons; by case_decide ].
Qed.

End reducer.

Lemma resolve_cases inst sortDescFirst old columnID desc multi action :
  resolve inst sortDescFirst old columnID desc multi = Some action →
  action = classify inst old columnID multi
  ∨ (classify inst old columnID multi = Toggle ∧ action = Remove).
Proof.
  unfold resolve. destruct (classify inst old columnID multi) eqn:Hc;
    cbn [isToggle andb]; try (intros [= <-]; by left).
  destruct (_ && _); [|intros [= <-]; by left].
  destruct (find _ old); [|done]. cbn.
  destruct (_ || _); intros [= <-]; auto.
Qed.

Lemma classify_Add_fresh inst old columnID multi :
  classify inst old columnID multi = Add →
  find (λ d, Sort.id d = columnID) old = None.
Proof.
  unfold classify. destruct (find _ old); [|done]. by repeat case_match.
Qed.

(** C3. A classified [Toggle] is downgraded to [Remove] exactly when no
    explicit [desc] was supplied, [disableSortRemove] is false,
    [disableMultiRemove] is false if [multi] is set, and
    [(existing.desc && !sortDescFirst) || (!existing.desc && sortDescFirst)].
    Consequently, for a column with [sortDescFirst = false] in single mode,
    successive toggles without direction cycle through [[]],
    [[{id, desc: false}]], [[{id, desc: true}]] and back to [[]] when
    removal is enabled, and alternate between [desc: false] and
    [desc: true], never empty, when [disableSortRemove] is set. *)
Theorem toggle_remove_downgrade_and_cycle inst columnID column multi :
  find (λ d, Column.id d = columnID) (columns inst) = Some column →
  (∀ sortDescFirst old desc,
      classify inst old columnID multi = Toggle →
      resolve inst sortDescFirst old columnID desc multi = Some Remove
      ↔ desc = None
        ∧ disableSortRemove inst = false
        ∧ (multi = true → disableMultiRemove inst = false)
        ∧ ∃ e, find (λ d, Sort.id d = columnID) old = Some e
               ∧ (truthy (Sort.desc e) && not_ sortDescFirst)
                 || (not_ (Sort.desc e) && truthy sortDescFirst) = true)
  ∧ (negb (disableMultiSort inst) && multi = false →
     Column.sortDescFirst column = Some false →
     (disableSortRemove inst = false →
      (multi = true → disableMultiRemove inst = false) →
      toggleSortBy inst columnID None multi []
        = Some [Sort.mk columnID (Some false)]
      ∧ toggleSortBy inst columnID None multi [Sort.mk columnID (Some false)]
        = Some [Sort.mk columnID (Some true)]
      ∧ toggleSortBy inst columnID None multi [Sort.mk columnID (Some true)]
        = Some []
      ∧ ∀ n, toggles inst columnID None multi (3 + n) []
             = toggles inst columnID None multi n [])
     ∧ (disableSortRemove inst = true →
        ∀ n, toggles inst columnID None multi (S n) []
             = Some [Sort.mk columnID (Some (Nat.odd n))])).
Proof.
  intros Hcol. split.
  - intros sortDescFirst old desc Hc.
    destruct (classify_Toggle_existing _ _ _ _ Hc) as [e He].
    unfold resolve. rewrite Hc, He. cbn [isToggle andb mbind option_bind].
    destruct (disableSortRemove inst), desc as [b|], multi,
      (disableMultiRemove inst); cbn;
      try (split; [done|intros (? & ? & Hm & ?); try done;
                        by specialize (Hm eq_refl)]);
      (destruct (_ || _) eqn:Hcond; split;
       [ intros _; split_and!; try done; by exists e
       | done
       | done
       | intros (_ & _ & _ & e' & [= <-] & Hcond'); congruence ]).
  - intros Hsingle Hfirst. split.
    + intros Hremove Hmulti.
      assert (toggleSortBy inst columnID None multi []
              = Some [Sort.mk columnID (Some false)]) as H0.
      { erewrite toggle_single_nil by done. by rewrite Hfirst. }
      assert (toggleSortBy inst columnID None multi
                [Sort.mk columnID (Some false)]
              = Some [Sort.mk columnID (Some true)]) as H1.
      { erewrite toggle_single_singleton by done.
        rewrite Hremove, Hfirst. cbn. by rewrite andb_false_r. }
      assert (toggleSortBy inst columnID None multi
                [Sort.mk columnID (Some true)] = Some []) as H2.
      { erewrite toggle_single_singleton by done.
        rewrite Hremove, Hfirst. cbn. destruct multi; [|done].
        by rewrite Hmulti. }
      split_and!; [done..|].
      intros n. unfold toggles. induction n as [|n IH].
      * cbn. rewrite H0. cbn. rewrite H1. cbn. by rewrite H2.
      * rewrite Nat.add_succ_r, !Nat.iter_succ. by rewrite IH.
    + intros Hremove n. unfold toggles. induction n as [|n IH].
      * cbn. erewrite toggle_single_nil by done. by rewrite Hfirst.
      * rewrite Nat.iter_succ, IH. cbn [mbind option_bind].
        erewrite toggle_single_singleton by done. rewrite Hremove. cbn.
        rewrite Nat.odd_succ, <- Nat.negb_odd. by destruct (Nat.odd n).
Qed.

Lemma toggle_remove_downgrade_and_cycle_witness :
  find (λ d, Column.id d = "A") (columns (table false false)) = Some colA
  ∧ classify (table false false) [Sort.mk "A" (Some true)] "A" false = Toggle
  ∧ resolve (table false false) (Some false) [Sort.mk "A" (Some true)] "A"
      None false = Some Remove
  ∧ toggles (table false false) "A" None false 3 [] = Some []
  ∧ toggles (table true false) "A" None false 4 []
    = Some [Sort.mk "A" (Some true)].
Proof.
  pose proof (toggle_remove_downgrade_and_cycle (table false false) "A" colA
                false eq_refl) as [Hdown Hsingle].
  destruct (Hsingle eq_refl eq_refl) as [Hcycle _].
  pose proof (toggle_remove_downgrade_and_cycle (table true false) "A" colA
                false eq_refl) as [_ Hsingle'].
  destruct (Hsingle' eq_refl eq_refl) as [_ Halt].
  split_and!.
  - reflexivity.
  - reflexivity.
  - apply Hdown; [reflexivity|]. split_and!; [done..|].
    by exists (Sort.mk "A" (Some true)).
  - destruct (Hcycle eq_refl) as (_ & _ & _ & Hperiod); [done|].
    exact (Hperiod 0%nat).
  - exact (Halt eq_refl 3%nat).
Defined.

(** C4. In single-sort mode the action is [Replace], and the list becomes
    exactly [[{id: columnID, desc: desc ?? sortDescFirst}]], unless the
    criterion found for [columnID] is the last element of the list, in
    which case the action is [Toggle].  In a list with one criterion per
    column that is the case exactly when the last criterion is the one of
    [columnID].  In particular, a toggle of [A] without direction on
    [[{A, ...}, {B, ...}]] yields [[{A, desc: sortDescFirst of A}]]. *)
Theorem single_mode_replace_unless_last inst columnID column multi :
  negb (disableMultiSort inst) && multi = false →
  find (λ d, Column.id d = columnID) (columns inst) = Some column →
  (∀ old desc,
      (existingIsLast columnID old →
       classify inst old columnID multi = Toggle)
      ∧ (¬ existingIsLast columnID old →
         classify inst old columnID multi = Replace
         ∧ toggleSortBy inst columnID desc multi old
           = Some [Sort.mk columnID
                     (if isDefined desc then desc
                      else Column.sortDescFirst column)])
      ∧ (NoDup (Sort.id <$> old) →
         existingIsLast columnID old
         ↔ ∃ e, last old = Some e ∧ Sort.id e = columnID))
  ∧ (∀ B descA descB,
        B ≠ columnID →
        toggleSortBy inst columnID None multi
          [Sort.mk columnID descA; Sort.mk B descB]
        = Some [Sort.mk columnID (Column.sortDescFirst column)]).
Proof.
  intros Hsingle Hcol.
  assert (∀ old desc,
    ¬ existingIsLast columnID old →
    classify inst old columnID multi = Replace
    ∧ toggleSortBy inst columnID desc multi old
      = Some [Sort.mk columnID
                (if isDefined desc then desc
                 else Column.sortDescFirst column)]) as Hreplace.
  { intros old desc Hlast.
    destruct (classify_single inst columnID old multi Hsingle) as [_ Hc].
    specialize (Hc Hlast). split; [done|].
    unfold toggleSortBy, resolve. rewrite Hcol, Hc. reflexivity. }
  split.
  - intros old desc. split_and!.
    + apply classify_single, Hsingle.
    + apply Hreplace.
    + intros Hnodup. split.
      * intros (pre & e & -> & Hid & _). exists e. by rewrite last_snoc.
      * intros (e & (pre & ->)%last_Some & Hid). exists pre, e.
        split_and!; [done..|].
        rewrite fmap_app in Hnodup. apply NoDup_app in Hnodup as (_ & Hne & _).
        apply Forall_forall. intros d Hd Hdid.
        apply (Hne (Sort.id d)); [by apply list_elem_of_fmap_2|].
        cbn. rewrite Hdid, Hid. apply list_elem_of_here.
  - intros B descA descB HB. apply (Hreplace _ None).
    intros (pre & e & E & Hid & _).
    assert (last [Sort.mk columnID descA; Sort.mk B descB] = Some e) as Hl.
    { rewrite E. apply last_snoc. }
    cbn in Hl. injection Hl as <-. by cbn in Hid.
Qed.

Lemma single_mode_replace_unless_last_witness :
  (negb (disableMultiSort (table false false)) && false = false
   ∧ find (λ d, Column.id d = "A") (columns (table false false)) = Some colA)
  ∧ classify (table false false) [Sort.mk "B" None; Sort.mk "A" (Some false)]
      "A" false = Toggle
  ∧ toggleSortBy (table false false) "A" None false
      [Sort.mk "A" (Some false); Sort.mk "B" (Some false)]
    = Some [Sort.mk "A" (Some false)].
Proof.
  destruct (single_mode_replace_unless_last (table false false) "A" colA
              false eq_refl eq_refl) as [Hactions Hrestart].
  split_and!; [reflexivity..| |].
  - apply (Hactions _ None).
    by exists [Sort.mk "B" None], (Sort.mk "A" (Some false)); repeat constructor.
  - by apply Hrestart.
Defined.

(** C5. With multi-sort enabled and [multi] true, toggling a column that
    has no criterion appends [{id: columnID, desc: desc ?? sortDescFirst}]
    to the end of the list and leaves the earlier criteria as they are;
    hence toggling two distinct columns [A] then [B] from the empty list
    yields [[{A, ...}, {B, ...}]] in that order. *)
Theorem multi_toggle_appends inst :
  disableMultiSort inst = false →
  (∀ columnID column desc old,
      find (λ d, Column.id d = columnID) (columns inst) = Some column →
      find (λ d, Sort.id d = columnID) old = None →
      toggleSortBy inst columnID desc true old
      = Some (old ++ [Sort.mk columnID
                        (if isDefined desc then desc
                         else Column.sortDescFirst column)]))
  ∧ (∀ A B columnA columnB descA descB,
        A ≠ B →
        find (λ d, Column.id d = A) (columns inst) = Some columnA →
        find (λ d, Column.id d = B) (columns inst) = Some columnB →
        toggleSortBy inst A descA true [] ≫= toggleSortBy inst B descB true
        = Some [Sort.mk A (if isDefined descA then descA
                           else Column.sortDescFirst columnA);
                Sort.mk B (if isDefined descB then descB
                           else Column.sortDescFirst columnB)]).
Proof.
  intros Hmulti.
  assert (∀ columnID column desc old,
    find (λ d, Column.id d = columnID) (columns inst) = Some column →
    find (λ d, Sort.id d = columnID) old = None →
    toggleSortBy inst columnID desc true old
    = Some (old ++ [Sort.mk columnID
                      (if isDefined desc then desc
                       else Column.sortDescFirst column)])) as Happend.
  { intros columnID column desc old Hcol Hfresh.
    unfold toggleSortBy, resolve, classify.
    rewrite Hcol, Hfresh, Hmulti. reflexivity. }
  split; [done|].
  intros A B columnA columnB descA descB HAB HA HB.
  rewrite (Happend A columnA descA []) by done. cbn [mbind option_bind app].
  rewrite (Happend B columnB descB); [done..|].
  rewrite find_cons, decide_False by done. reflexivity.
Qed.

Lemma multi_toggle_appends_witness :
  disableMultiSort (table false false) = false
  ∧ toggleSortBy (table false false) "A" None true []
      ≫= toggleSortBy (table false false) "B" None true
    = Some [Sort.mk "A" (Some false); Sort.mk "B" None].
Proof.
  split; [reflexivity|].
  destruct (multi_toggle_appends (table false false) eq_refl)
    as [_ Htwice].
  by apply (Htwice "A" "B" colA colB None None).
Defined.

(** C9. When every column identifier occurs at most once in the list,
    it occurs at most once in the list produced by the toggle operation,
    whichever action is applied; the [Toggle] action keeps every criterion
    in its place and the [Remove] action only drops the criterion of the
    column, so both preserve the untouched criteria and their order. *)
Theorem toggle_preserves_uniqueness inst columnID desc multi old new :
  NoDup (Sort.id <$> old) →
  toggleSortBy inst columnID desc multi old = Some new →
  NoDup (Sort.id <$> new)
  ∧ ∀ column action,
      find (λ d, Column.id d = columnID) (columns inst) = Some column →
      resolve inst (Column.sortDescFirst column) old columnID desc multi
        = Some action →
      (action = Toggle →
       Sort.id <$> new = Sort.id <$> old
       ∧ filter (λ d, Sort.id d ≠ columnID) new
         = filter (λ d, Sort.id d ≠ columnID) old)
      ∧ (action = Remove →
         new = filter (λ d, Sort.id d ≠ columnID) old).
Proof.
  intros Hnodup Htoggle. unfold toggleSortBy in Htoggle.
  destruct (find _ (columns inst)) as [column|] eqn:Hcol; [|done].
  cbn in Htoggle.
  destruct (resolve _ _ _ _ _ _) as [action|] eqn:Hres; [|done].
  cbn in Htoggle.
  assert (action = Toggle →
          new = (λ d, if decide (Sort.id d = columnID)
                      then Sort.mk (Sort.id d)
                             (if isDefined desc then desc
                              else Some (not_ (Sort.desc
                                     (default (Sort.mk columnID None)
                                        (find (λ d, Sort.id d = columnID)
                                           old)))))
                      else d) <$> old) as Hmap.
  { intros ->. apply resolve_cases in Hres as [Hc|[_ [=]]].
    symmetry in Hc.
    destruct (classify_Toggle_existing _ _ _ _ Hc) as [e He].
    erewrite apply_Toggle in Htoggle by done. rewrite He. cbn.
    by injection Htoggle as <-. }
  assert (action = Toggle → Sort.id <$> new = Sort.id <$> old) as Hids.
  { intros ->. rewrite Hmap by done. rewrite <- list_fmap_compose.
    apply list_fmap_ext. intros _ d _. cbn. by destruct (decide _). }
  split.
  - destruct action.
    + injection Htoggle as <-. cbn. apply NoDup_singleton.
    + injection Htoggle as <-.
      apply resolve_cases in Hres as [Hc|[_ [=]]]. symmetry in Hc.
      apply classify_Add_fresh, find_None in Hc.
      rewrite fmap_app. apply NoDup_app. split_and!; [done| |].
      * intros x Hx ->%list_elem_of_singleton.
        apply list_elem_of_fmap in Hx as (d & Hid & Hd).
        rewrite Forall_forall in Hc. by apply (Hc d Hd).
      * cbn. apply NoDup_singleton.
    + by rewrite Hids.
    + injection Htoggle as <-.
      eapply sublist_NoDup; [exact Hnodup|].
      apply fmap_sublist, sublist_filter.
  - intros column' action' [= <-] Hres'. rewrite Hres in Hres'.
    injection Hres' as <-. split.
    + intros ->. split; [by apply Hids|].
      rewrite Hmap by done.
      generalize (default (Sort.mk columnID None)
                    (find (λ d, Sort.id d = columnID) old)).
      intros e. clear. induction old as [|d l IH]; [done|].
      cbn [fmap list_fmap]. rewrite !filter_cons.
      destruct (decide (Sort.id d = columnID)) as [Hd|Hd]; cbn.
      * rewrite !decide_False by tauto. apply IH.
      * rewrite !decide_True by done. f_equal. apply IH.
    + intros ->. by injection Htoggle as <-.
Qed.

Lemma toggle_preserves_uniqueness_witness :
  (NoDup (Sort.id <$> [Sort.mk "A" (Some true); Sort.mk "B" None])
   ∧ toggleSortBy (table false false) "A" None true
       [Sort.mk "A" (Some true); Sort.mk "B" None]
     = Some [Sort.mk "B" None])
  ∧ NoDup (Sort.id <$> [Sort.mk "B" None]).
Proof.
  assert (NoDup (Sort.id <$> [Sort.mk "A" (Some true); Sort.mk "B" None]))
    as Hnodup by (cbn; by apply NoDup_cons_2, NoDup_singleton;
                  rewrite list_elem_of_singleton).
  split; [by split|].
  exact (proj1 (toggle_preserves_uniqueness (table false false) "A" None true
                  _ _ Hnodup eq_refl)).
Defined.

(** * Properties of the ordering engine *)

(** ** Comparator and direction of a criterion *)

(** C6, on the code.  The comparator of a criterion is the column's
    [sortType] when that is a function, whatever the registries hold;
    otherwise the own entry of the user registry under the [sortType] key,
    whatever the built-in registry holds.  For a key that is no own entry
    of the user registry and that plain objects do not inherit, it is the
    entry of the built-in registry under that key, and the built-in
    [alphanumeric] comparator when there is none.  For a key that plain
    objects inherit ([toString], [constructor], ...) and that the user
    registry does not define, line 243 finds the inherited function: that
    function is used, and neither the built-in registry nor the default
    comparator is consulted. *)
Theorem sortMethod_priority :
  (∀ sortTypes inst fn,
      sortMethod sortTypes inst (SortTypeFn fn) = fn)
  ∧ (∀ sortTypes inst sortType key registry fn,
        propertyKey sortType = Some key →
        userSortTypes inst = Some registry →
        registry !! key = Some fn →
        sortMethod sortTypes inst sortType = fn)
  ∧ (∀ sortTypes inst sortType key fn,
        propertyKey sortType = Some key →
        default ∅ (userSortTypes inst) !! key = None →
        objectPrototype sortTypes !! key = None →
        key ≠ "alphanumeric" →
        named sortTypes !! key = Some fn →
        sortMethod sortTypes inst sortType = fn)
  ∧ (∀ sortTypes inst sortType key,
        propertyKey sortType = Some key →
        default ∅ (userSortTypes inst) !! key = None →
        objectPrototype sortTypes !! key = None →
        key = "alphanumeric" ∨ named sortTypes !! key = None →
        sortMethod sortTypes inst sortType = alphanumeric sortTypes)
  ∧ (∀ sortTypes inst sortType key fn,
        propertyKey sortType = Some key →
        default ∅ (userSortTypes inst) !! key = None →
        objectPrototype sortTypes !! key = Some fn →
        sortMethod sortTypes inst sortType = fn).
Proof.
  split_and!.
  - done.
  - intros sortTypes inst sortType key registry fn Hkey Huser Hfn.
    unfold sortMethod, getProperty. rewrite Hkey, Huser. cbn. rewrite Hfn.
    by destruct sortType.
  - intros sortTypes inst sortType key fn Hkey Huser Hproto Hname Hfn.
    unfold sortMethod, getProperty, builtin. rewrite Hkey. cbn.
    rewrite Huser, Hproto, decide_False, Hfn by done.
    by destruct sortType.
  - intros sortTypes inst sortType key Hkey Huser Hproto Hnone.
    unfold sortMethod, getProperty, builtin. rewrite Hkey. cbn.
    rewrite Huser, Hproto.
    destruct (decide (key = "alphanumeric")) as [Hname|Hname];
      [by destruct sortType|].
    destruct Hnone as [Hnone|Hnone]; [done|].
    rewrite Hnone. by destruct sortType.
  - intros sortTypes inst sortType key fn Hkey Huser Hproto.
    unfold sortMethod, getProperty. rewrite Hkey. cbn.
    rewrite Huser, Hproto.
    by destruct sortType.
Qed.

Lemma sortMethod_priority_witness :
  sortMethod builtins manualTable (SortTypeFn byNumberReversed)
  = byNumberReversed
  ∧ sortMethod builtins manualTable (SortTypeName "basic") = probe
  ∧ sortMethod builtins (table false false) (SortTypeName "reversed")
    = byNumberReversed
  ∧ sortMethod builtins (table false false) SortTypeUnset = byNumber
  ∧ sortMethod builtins (table false false) (SortTypeName "toString")
    = objectToString
  ∧ objectToString (VNum 1) (VNum 2) None
    ≠ alphanumeric builtins (VNum 1) (VNum 2) None
  ∧ byNumberReversed (VNum 1) (VNum 2) None
    ≠ alphanumeric builtins (VNum 1) (VNum 2) None.
Proof.
  destruct sortMethod_priority
    as (Hfn & Huser & Hbuiltin & Hdefault & Hinherited).
  split_and!.
  - apply Hfn.
  - by apply (Huser _ _ _ "basic" {["basic" := probe]}).
  - by apply (Hbuiltin _ _ _ "reversed").
  - apply (Hdefault builtins _ _ "undefined"); [done..|by right].
  - by apply (Hinherited _ _ _ "toString").
  - done.
  - done.
Defined.

(** C1, as the code has it.  In the call of [orderByFn] that orders a
    level, the row comparator of every criterion calls the resolved
    comparator with the cell values of the two rows and with the
    criterion's [desc], whether or not the column sets [sortInverted].
    [sortInverted] only selects the direction flag handed to [orderByFn]:
    [!desc], or [desc] for an inverted column. *)
Theorem comparator_receives_desc sortTypes inst h rows sorted :
  orderLevel sortTypes inst h rows = Some sorted →
  ∃ funcs dirs,
    sorted = default defaultOrderByFn (orderByFn inst) rows funcs dirs
    ∧ Forall2 (λ sort f,
        ∃ column,
          find (λ d, Column.id d = Sort.id sort) (columns inst) = Some column
          ∧ ∀ a b, f a b = sortMethod sortTypes inst (Column.sortType column)
                             (valueAt h a (Sort.id sort))
                             (valueAt h b (Sort.id sort)) (Sort.desc sort))
        (sortBy inst) funcs
    ∧ Forall2 (λ sort dir,
        ∃ column,
          find (λ d, Column.id d = Sort.id sort) (columns inst) = Some column
          ∧ dir = if truthy (Column.sortInverted column) then Sort.desc sort
                  else Some (not_ (Sort.desc sort)))
        (sortBy inst) dirs.
Proof.
  unfold orderLevel. intros Hsorted.
  destruct (mapM (sortFn _ _ _) _) as [funcs|] eqn:Hfuncs; [|done].
  destruct (mapM (direction _) _) as [dirs|] eqn:Hdirs; [|done].
  injection Hsorted as <-. exists funcs, dirs. split_and!; [done|..].
  - apply mapM_Some in Hfuncs. eapply Forall2_impl; [exact Hfuncs|].
    intros sort f Hf. unfold sortFn in Hf.
    destruct (find _ (columns inst)) as [column|]; [|done].
    injection Hf as <-. by exists column.
  - apply mapM_Some in Hdirs. eapply Forall2_impl; [exact Hdirs|].
    intros sort dir Hdir. unfold direction in Hdir.
    destruct (find _ (columns inst)) as [column|]; [|done].
    injection Hdir as <-. by exists column.
Qed.

Lemma comparator_receives_desc_witness :
  orderLevel builtins invertedTable store [0; 1]%nat = Some [0; 1]%nat
  ∧ ∃ f dir,
      (∀ a b, f a b = probe (valueAt store a "A") (valueAt store b "A")
                        (Some false))
      ∧ dir = Some false
      ∧ [0; 1]%nat = defaultOrderByFn [0; 1]%nat [f] [dir].
Proof.
  assert (orderLevel builtins invertedTable store [0; 1]%nat
          = Some [0; 1]%nat) as Hlevel by reflexivity.
  split; [done|].
  destruct (comparator_receives_desc _ _ _ _ _ Hlevel)
    as (funcs & dirs & Hsorted & Hfuncs & Hdirs).
  cbn in Hfuncs, Hdirs.
  apply Forall2_cons_inv_l in Hfuncs
    as (f & funcs' & (column & [= <-] & Hf) & ->%Forall2_nil_inv_l & ->).
  apply Forall2_cons_inv_l in Hdirs
    as (dir & dirs' & (column & [= <-] & Hdir) & ->%Forall2_nil_inv_l & ->).
  by exists f, dir.
Defined.

(** C1, as stated, fails: the column sets [sortInverted], the criterion has
    [desc = false], and the comparator is not called with [true].  The
    comparator [probe] answers [1] when it is called with a truthy
    direction and [0] otherwise. *)
Lemma inverted_comparator_called_with_desc :
  ∃ f, sortFn builtins invertedTable store (Sort.mk "A" (Some false)) = Some f
       ∧ Column.sortInverted colInverted = Some true
       ∧ f 0%nat 1%nat = probe (VNum 2) (VNum 1) (Some false)
       ∧ f 0%nat 1%nat ≠ probe (VNum 2) (VNum 1) (Some true).
Proof. eexists. split; [reflexivity|]. by split_and!. Qed.

(** ** Short-circuit *)

(** C7. With manual sorting, or without criteria, the rows are returned as
    they are: the same reference, and the store unchanged. *)
Theorem manual_or_empty_returns_rows sortTypes inst fuel h rows :
  manualSorting inst = true ∨ sortBy inst = [] →
  sortedRows sortTypes inst fuel h rows = Some (h, rows).
Proof.
  unfold sortedRows. intros [->| ->]; [done|]. by rewrite orb_true_r.
Qed.

Lemma manual_or_empty_returns_rows_witness :
  (manualSorting manualTable = true ∧ sortBy manualTable ≠ [])
  ∧ sortedRows builtins manualTable 0 store 0%nat = Some (store, 0%nat).
Proof.
  split; [by split|].
  apply manual_or_empty_returns_rows. by left.
Defined.

(** ** The built-in composition *)

Section sorting.
Context {A : Type}.
Implicit Types (cmp : A → A → Z) (l : list A).

Lemma insertBy_perm cmp x l : insertBy cmp x l ≡ₚ x :: l.
Proof.
  induction l as [|y l IH]; [done|]. cbn.
  destruct (cmp x y <=? 0); [done|]. by rewrite IH, Permutation_swap.
Qed.

Lemma stableSort_cons cmp x l :
  stableSort cmp (x :: l) = insertBy cmp x (stableSort cmp l).
Proof. reflexivity. Qed.

Lemma stableSort_perm cmp l : stableSort cmp l ≡ₚ l.
Proof.
  induction l as [|x l IH]; [done|].
  by rewrite stableSort_cons, insertBy_perm, IH.
Qed.

Lemma stableSort_elem_of cmp l x : x ∈ stableSort cmp l ↔ x ∈ l.
Proof. by rewrite stableSort_perm. Qed.

Lemma insertBy_ext cmp cmp' x l :
  (∀ y, y ∈ l → cmp x y = cmp' x y) →
  insertBy cmp x l = insertBy cmp' x l.
Proof.
  induction l as [|y l IH]; [done|]. intros Heq. cbn.
  rewrite <- (Heq y) by left. rewrite IH; [done|].
  intros z Hz. apply Heq. by right.
Qed.

(** The composition only compares rows of the array it is given. *)
Lemma stableSort_ext cmp cmp' l :
  (∀ x y, x ∈ l → y ∈ l → cmp x y = cmp' x y) →
  stableSort cmp l = stableSort cmp' l.
Proof.
  induction l as [|x l IH]; [done|]. intros Heq. rewrite !stableSort_cons.
  rewrite <- IH by (intros; apply Heq; by right).
  apply insertBy_ext. intros y Hy%stableSort_elem_of. apply Heq; [left|by right].
Qed.

Lemma before_cons (x y z : A) l : before x y l → before x y (z :: l).
Proof. intros (l1 & l2 & l3 & ->). by exists (z :: l1), l2, l3. Qed.

Lemma before_here (x y : A) l : y ∈ l → before x y (x :: l).
Proof. intros (l2 & l3 & ->)%list_elem_of_split. by exists [], l2, l3. Qed.

Lemma before_cons_inv (x y z : A) l :
  before x y (z :: l) → (z = x ∧ y ∈ l) ∨ before x y l.
Proof.
  intros ([|z' l1] & l2 & l3 & E); simplify_eq/=.
  - left. split; [done|]. set_solver.
  - right. by exists l1, l2, l3.
Qed.

Lemma before_elem_of_r (x y : A) l : before x y l → y ∈ l.
Proof. intros (l1 & l2 & l3 & ->). set_solver. Qed.

Lemma insertBy_before_keep cmp z (x y : A) l :
  before x y l → before x y (insertBy cmp z l).
Proof.
  induction l as [|w l IH]; cbn.
  - intros ([|??] & ? & ? & ?); simplify_eq/=.
  - destruct (cmp z w <=? 0); [apply before_cons|].
    intros [[-> Hy]|Hb]%before_cons_inv.
    + apply before_here. rewrite insertBy_perm. by right.
    + by apply before_cons, IH.
Qed.

Lemma insertBy_before_new cmp (x y : A) l :
  y ∈ l → cmp x y = 0 → before x y (insertBy cmp x l).
Proof.
  intros Hy Hxy. induction l as [|w l IH]; [by inversion Hy|]. cbn.
  destruct (cmp x w <=? 0) eqn:Hle; [by apply before_here|].
  apply before_cons, IH. inversion Hy; subst; [|done].
  rewrite Hxy in Hle. done.
Qed.

(** Stability of the composition: a row that precedes a row it compares
    equal to still precedes it in the result. *)
Lemma stableSort_stable cmp (x y : A) l :
  before x y l → cmp x y = 0 → before x y (stableSort cmp l).
Proof.
  intros Hb Hxy. induction l as [|z l IH]; rewrite ?stableSort_cons.
  - destruct Hb as ([|??] & ? & ? & ?); simplify_eq/=.
  - apply before_cons_inv in Hb as [[-> Hy]|Hb].
    + apply insertBy_before_new; [|done]. by apply stableSort_elem_of.
    + by apply insertBy_before_keep, IH.
Qed.

Lemma composeFns_zero (funcs : list (A → A → Z)) dirs x y :
  Forall (λ f, f x y = 0) funcs → composeFns funcs dirs x y = 0.
Proof.
  intros Hz. revert dirs. induction Hz as [|f funcs Hf _ IH]; [done|].
  intros [|d dirs]; [done|]. cbn. rewrite Hf. apply IH.
Qed.

Lemma composeFns_ext (funcs funcs' : list (A → A → Z)) dirs x y :
  Forall2 (λ f f', f x y = f' x y) funcs funcs' →
  composeFns funcs dirs x y = composeFns funcs' dirs x y.
Proof.
  intros Heq. revert dirs.
  induction Heq as [|f f' funcs funcs' Hf _ IH]; [done|].
  intros [|d dirs]; [done|]. cbn. by rewrite Hf, IH.
Qed.

End sorting.

Lemma stableSort_fmap {A B} (f : A → B) (cmp : B → B → Z) (l : list A) :
  stableSort cmp (f <$> l) = f <$> stableSort (λ x y, cmp (f x) (f y)) l.
Proof.
  induction l as [|x l IH]; [done|].
  rewrite fmap_cons, !stableSort_cons, IH.
  generalize (stableSort (λ x y, cmp (f x) (f y)) l). intros k.
  induction k as [|y k IHk]; [done|]. cbn.
  destruct (cmp (f x) (f y) <=? 0); [done|]. by rewrite IHk.
Qed.

(** ** What a call does to the store *)

Lemma rowKept_refl h h' o : rowKept h h' o o.
Proof. split; [done|by left]. Qed.

Lemma rowKept_trans h1 h2 h3 o1 o2 o3 :
  (length (arrays h1) ≤ length (arrays h2))%nat →
  (length (arrays h2) ≤ length (arrays h3))%nat →
  rowKept h1 h2 o1 o2 → rowKept h2 h3 o2 o3 → rowKept h1 h3 o1 o3.
Proof.
  intros H12 H23 [Hv1 Hs1] [Hv2 Hs2]. split; [congruence|].
  destruct Hs2 as [Hs2|(Hsome & a' & Ha' & Hbound)].
  - rewrite Hs2. destruct Hs1 as [|(? & a' & ? & ?)]; [by left|].
    right. split; [done|]. exists a'. split; [done|lia].
  - right. split.
    + destruct Hs1 as [<-|[? _]]; done.
    + exists a'. split; [done|lia].
Qed.

Lemma extends_refl h : extends h h.
Proof.
  split; [done|]. apply Forall_Forall2_diag, Forall_forall.
  intros o _. apply rowKept_refl.
Qed.

Lemma extends_length h h' :
  extends h h' → (length (arrays h) ≤ length (arrays h'))%nat.
Proof. intros [Hp _]. by apply prefix_length. Qed.

Lemma extends_trans h1 h2 h3 : extends h1 h2 → extends h2 h3 → extends h1 h3.
Proof.
  intros H12 H23. pose proof (extends_length _ _ H12).
  pose proof (extends_length _ _ H23).
  destruct H12 as [Hp12 Hr12], H23 as [Hp23 Hr23]. split; [by etrans|].
  eapply Forall2_trans; [|exact Hr12|exact Hr23].
  intros o1 o2 o3. by apply rowKept_trans.
Qed.

Lemma extends_array h h' a l :
  extends h h' → arrays h !! a = Some l → arrays h' !! a = Some l.
Proof. intros [Hp _] Ha. by eapply prefix_lookup_Some. Qed.

Lemma extends_row h h' row o :
  extends h h' → rowObjs h !! row = Some o →
  ∃ o', rowObjs h' !! row = Some o' ∧ rowKept h h' o o'.
Proof. intros [_ Hr] Ho. by eapply Forall2_lookup_l. Qed.

Lemma extends_valueAt h h' row id :
  extends h h' → valueAt h' row id = valueAt h row id.
Proof.
  intros [_ Hr]. unfold valueAt. rewrite Forall2_lookup in Hr.
  specialize (Hr row).
  inversion Hr as [o o' [Hv _]|]; [by rewrite Hv|done].
Qed.

Lemma extends_newArray h l : extends h (newArray h l).1.
Proof.
  split; cbn; [by apply prefix_app_r|].
  apply Forall_Forall2_diag, Forall_forall. intros o _. apply rowKept_refl.
Qed.

Lemma sortSubRows_extends sortTypes inst rec h row h' :
  (∀ hc a hc' out, rec hc a = Some (hc', out) →
                   callSpec sortTypes inst hc a hc' out) →
  sortSubRows rec h row = Some h' → extends h h'.
Proof.
  intros Hrec. unfold sortSubRows.
  destruct (rowObjs h !! row) as [obj|] eqn:Hobj; [|done]. cbn.
  destruct (subRows obj) as [sub|] eqn:Hsub.
  - destruct (rec h sub) as [[hk sub']|] eqn:Hcall; [|done]. cbn.
    intros [= <-].
    apply Hrec in Hcall as ([Hp Hr] & -> & arr & sorted & _ & _ & Hout).
    split; [done|]. cbn. apply Forall2_alter_r; [done|].
    intros o o' Ho _ [Hv _]. rewrite Hobj in Ho. injection Ho as <-.
    split; [done|]. right. rewrite Hsub. split; [done|].
    eexists. split; [done|]. cbn. split; [done|].
    by eapply lookup_lt_Some.
  - intros [= <-]. apply extends_refl.
Qed.

Lemma visit_extends f arr h h' :
  (∀ hc row hc', f hc row = Some hc' → extends hc hc') →
  visit f arr h = Some h' → extends h h'.
Proof.
  intros Hf. revert h. induction arr as [|row arr IH]; intros h; cbn.
  - intros [= <-]. apply extends_refl.
  - destruct (f h row) as [hc|] eqn:Hrow; [|done]. cbn. intros Hrest.
    eapply extends_trans; eauto.
Qed.

(** The loop over an array that the callback leaves alone visits the
    elements the array holds. *)
Lemma forEachFrom_visit f arr l :
  (∀ hc row hc',
      arrays hc !! arr = Some l → f hc row = Some hc' →
      arrays hc' !! arr = Some l) →
  ∀ post pre h,
    l = pre ++ post → arrays h !! arr = Some l →
    forEachFrom f arr (length post) (length pre) h = visit f post h.
Proof.
  intros Hkeep. induction post as [|row post IH]; intros pre h -> Harr; [done|].
  cbn [length forEachFrom visit]. rewrite Harr. cbn [mbind option_bind].
  rewrite list_lookup_middle by done.
  destruct (f h row) as [h'|] eqn:Hrow; [|done]. cbn [mbind option_bind].
  rewrite <- (IH (pre ++ [row]) h').
  - by rewrite length_app, Nat.add_1_r.
  - by rewrite <- app_assoc.
  - by eapply Hkeep.
Qed.

Lemma forEach_visit f arr l h :
  (∀ hc row hc',
      arrays hc !! arr = Some l → f hc row = Some hc' →
      arrays hc' !! arr = Some l) →
  arrays h !! arr = Some l →
  forEach f arr h = visit f l h.
Proof.
  intros Hkeep Harr. unfold forEach. rewrite Harr. cbn [mbind option_bind].
  by apply (forEachFrom_visit f arr l Hkeep l []).
Qed.

(** One step of [sortData], with the answer of [orderByFn] stored. *)
Lemma sortData_step sortTypes inst fuel h rows :
  sortData sortTypes inst (S fuel) h rows
  = arr ← arrays h !! rows;
    sorted ← orderLevel sortTypes inst h arr;
    let answer :=
      storeAnswer (default defaultOrderByFn (orderByFn inst)) h rows sorted in
    h2 ← forEach (sortSubRows (sortData sortTypes inst fuel)) answer.2 answer.1;
    Some (h2, answer.2).
Proof.
  cbn [sortData]. destruct (arrays h !! rows) as [arr|]; [|done]. cbn.
  destruct (orderLevel sortTypes inst h arr) as [sorted|]; [|done]. cbn.
  by destruct (storeAnswer _ h rows sorted).
Qed.

Lemma builtin_buildsNewArray inst : orderByFn inst = None → buildsNewArray inst.
Proof. unfold buildsNewArray. by intros ->. Qed.

Lemma storeAnswer_new inst h rows sorted :
  buildsNewArray inst →
  storeAnswer (default defaultOrderByFn (orderByFn inst)) h rows sorted
  = newArray h sorted.
Proof. unfold buildsNewArray, storeAnswer. by intros ->. Qed.

Lemma storeAnswer_same inst h rows sorted :
  placement (default defaultOrderByFn (orderByFn inst)) = SameArray →
  storeAnswer (default defaultOrderByFn (orderByFn inst)) h rows sorted
  = (setArray h rows sorted, rows).
Proof. unfold storeAnswer. by intros ->. Qed.

Lemma newArray_lookup h l :
  arrays (newArray h l).1 !! (newArray h l).2 = Some l.
Proof. cbn. by apply list_lookup_middle. Qed.

(** With an [orderByFn] that builds new arrays, the loop of a call visits
    the rows that [orderByFn] answered. *)
Lemma forEach_new sortTypes inst rec h sorted :
  (∀ hc a hc' out, rec hc a = Some (hc', out) →
                   callSpec sortTypes inst hc a hc' out) →
  forEach (sortSubRows rec) (newArray h sorted).2 (newArray h sorted).1
  = visit (sortSubRows rec) sorted (newArray h sorted).1.
Proof.
  intros Hrec. apply forEach_visit; [|apply newArray_lookup].
  intros hc row hc' Harr Hrow. eapply extends_array; [|done].
  by apply (sortSubRows_extends sortTypes inst rec hc row).
Qed.

Lemma sortData_callSpec sortTypes inst fuel h rows h' out :
  buildsNewArray inst →
  sortData sortTypes inst fuel h rows = Some (h', out) →
  callSpec sortTypes inst h rows h' out.
Proof.
  intros Hnew. revert h rows h' out. induction fuel as [|fuel IH]; [done|].
  intros h rows h' out. rewrite sortData_step.
  destruct (arrays h !! rows) as [arr|] eqn:Harr; [|done]. cbn.
  destruct (orderLevel sortTypes inst h arr) as [sorted|] eqn:Hsorted;
    [|done]. cbn. rewrite storeAnswer_new by done.
  rewrite (forEach_new sortTypes inst) by done.
  destruct (visit _ sorted _) as [h2|] eqn:Hloop; [|done]. cbn.
  intros [= <- <-].
  apply visit_extends in Hloop;
    [|intros ???; by apply (sortSubRows_extends sortTypes inst)].
  split_and!.
  - eapply extends_trans; [apply (extends_newArray h sorted)|done].
  - done.
  - exists arr, sorted. split_and!; [done..|].
    eapply extends_array; [done|]. cbn. by apply list_lookup_middle.
Qed.

(** One step of [sortData] with an [orderByFn] that builds new arrays. *)
Lemma sortData_step_new sortTypes inst fuel h rows :
  buildsNewArray inst →
  sortData sortTypes inst (S fuel) h rows
  = arr ← arrays h !! rows;
    sorted ← orderLevel sortTypes inst h arr;
    h2 ← visit (sortSubRows (sortData sortTypes inst fuel)) sorted
           (newArray h sorted).1;
    Some (h2, length (arrays h)).
Proof.
  intros Hnew. rewrite sortData_step.
  destruct (arrays h !! rows) as [arr|]; [|done]. cbn.
  destruct (orderLevel sortTypes inst h arr) as [sorted|]; [|done]. cbn.
  rewrite storeAnswer_new by done.
  rewrite (forEach_new sortTypes inst); [done|].
  intros ????. by apply sortData_callSpec.
Qed.

(** ** Stability *)

Lemma orderLevel_builtin sortTypes inst h arr :
  orderByFn inst = None →
  orderLevel sortTypes inst h arr
  = (λ cmp, stableSort cmp arr) <$> rowCompare sortTypes inst h.
Proof.
  intros Hfn. unfold orderLevel, rowCompare. rewrite Hfn.
  destruct (mapM (sortFn _ _ _) _); [|done]. cbn.
  by destruct (mapM (direction _) _).
Qed.

(** C10. The built-in composition is stable: a row that precedes, in the
    array given to [sortData], a row to which it compares equal under
    every criterion still precedes it in the array that is returned.
    Each level of the row tree is ordered by such a call. *)
Theorem builtin_composition_stable sortTypes inst :
  orderByFn inst = None →
  (∀ arr funcs dirs x y,
      before x y arr →
      Forall (λ f, f x y = 0) funcs →
      before x y (default defaultOrderByFn (orderByFn inst) arr funcs dirs))
  ∧ (∀ fuel h rows h' out arr x y,
        sortData sortTypes inst fuel h rows = Some (h', out) →
        arrays h !! rows = Some arr →
        before x y arr →
        (∀ sort column,
            sort ∈ sortBy inst →
            find (λ d, Column.id d = Sort.id sort) (columns inst)
              = Some column →
            sortMethod sortTypes inst (Column.sortType column)
              (valueAt h x (Sort.id sort)) (valueAt h y (Sort.id sort))
              (Sort.desc sort) = 0) →
        ∃ sorted, arrays h' !! out = Some sorted ∧ before x y sorted).
Proof.
  intros Hfn. rewrite Hfn. cbn [default]. split.
  - intros arr funcs dirs x y Hb Hz. apply stableSort_stable; [done|].
    by apply composeFns_zero.
  - intros fuel h rows h' out arr x y Hcall Harr Hb Hequal.
    apply sortData_callSpec in Hcall
      as (_ & _ & arr' & sorted & Harr' & Hsorted & Hout);
      [|by apply builtin_buildsNewArray].
    rewrite Harr in Harr'. injection Harr' as <-.
    exists sorted. split; [done|].
    unfold orderLevel in Hsorted. rewrite Hfn in Hsorted.
    destruct (mapM (sortFn _ _ _) _) as [funcs|] eqn:Hfuncs; [|done].
    destruct (mapM (direction _) _) as [dirs|]; [|done].
    injection Hsorted as <-. apply stableSort_stable; [done|].
    apply composeFns_zero. apply mapM_Some in Hfuncs.
    apply Forall_forall. intros f Hf.
    apply list_elem_of_lookup in Hf as [i Hi].
    destruct (Forall2_lookup_r _ _ _ _ _ Hfuncs Hi) as (sort & Hs & Hfn').
    unfold sortFn in Hfn'.
    destruct (find _ (columns inst)) as [column|] eqn:Hcol; [|done].
    injection Hfn' as <-. eapply Hequal; [|done].
    by eapply list_elem_of_lookup_2.
Qed.

Lemma builtin_composition_stable_witness :
  (orderByFn (table false false) = None
   ∧ sortData builtins (table false false) 1 tieStore 0%nat
     = Some (tieSorted, 1%nat)
   ∧ before 0%nat 2%nat [0; 1; 2]%nat)
  ∧ ∃ sorted, arrays tieSorted !! 1%nat = Some sorted
              ∧ before 0%nat 2%nat sorted.
Proof.
  assert (sortData builtins (table false false) 1 tieStore 0%nat
          = Some (tieSorted, 1%nat)) as Hcall by (vm_compute; reflexivity).
  assert (before 0%nat 2%nat [0; 1; 2]%nat) as Hb by (by exists [], [1%nat], []).
  split; [done|].
  destruct (builtin_composition_stable builtins (table false false) eq_refl)
    as [_ Hstable].
  apply (Hstable _ _ _ _ _ _ _ _ Hcall eq_refl Hb).
  intros sort column ->%list_elem_of_singleton [= <-]. reflexivity.
Defined.

(** ** Forests *)

Lemma Tree_ind (P : Tree → Prop) :
  (∀ row, P (Node row None)) →
  (∀ row ts, Forall P ts → P (Node row (Some ts))) →
  ∀ t, P t.
Proof.
  intros Hleaf Hinner. fix IH 1. intros [row [ts|]]; [|apply Hleaf].
  apply Hinner. induction ts as [|t ts IHts]; constructor; [apply IH|done].
Qed.

Lemma root_orderTree cmp t : root (orderTree cmp t) = root t.
Proof. by destruct t. Qed.

Lemma roots_orderTree cmp (ts : list Tree) :
  root <$> (orderTree cmp <$> ts) = root <$> ts.
Proof.
  rewrite <- list_fmap_compose. apply list_fmap_ext.
  intros _ t _. apply root_orderTree.
Qed.

(** The ordering of a forest orders the level and then, in every row that
    owns sub-rows, the sub-rows. *)
Lemma orderForest_eq cmp ts :
  orderForest cmp ts
  = orderTree cmp <$> stableSort (λ a b, cmp (root a) (root b)) ts.
Proof.
  unfold orderForest. rewrite stableSort_fmap. f_equal.
  apply stableSort_ext. intros a b _ _. by rewrite !root_orderTree.
Qed.

Lemma roots_orderForest cmp ts :
  root <$> orderForest cmp ts = stableSort cmp (root <$> ts).
Proof. by rewrite orderForest_eq, roots_orderTree, stableSort_fmap. Qed.

Lemma rowsOf_orderTree cmp t : rowsOf (orderTree cmp t) ≡ₚ rowsOf t.
Proof.
  induction t as [row|row ts IH] using Tree_ind; [done|].
  cbn. constructor. rewrite stableSort_perm.
  induction IH as [|t ts Ht _ IHts]; [done|].
  rewrite fmap_cons, !bind_cons. by rewrite Ht, IHts.
Qed.

Lemma rowsOf_orderForest cmp ts :
  orderForest cmp ts ≫= rowsOf ≡ₚ ts ≫= rowsOf.
Proof.
  unfold orderForest. rewrite stableSort_perm.
  induction ts as [|t ts IH]; [done|].
  rewrite fmap_cons, !bind_cons. by rewrite rowsOf_orderTree, IH.
Qed.

Lemma orderTree_ext cmp cmp' t :
  (∀ a b, cmp a b = cmp' a b) → orderTree cmp t = orderTree cmp' t.
Proof.
  intros Heq. induction t as [row|row ts IH] using Tree_ind; [done|].
  cbn. do 2 f_equal.
  assert (orderTree cmp <$> ts = orderTree cmp' <$> ts) as ->.
  { induction IH as [|t ts Ht _ IHts]; [done|]. cbn. by rewrite Ht, IHts. }
  apply stableSort_ext. intros a b _ _. apply Heq.
Qed.

Lemma orderForest_ext cmp cmp' ts :
  (∀ a b, cmp a b = cmp' a b) → orderForest cmp ts = orderForest cmp' ts.
Proof.
  intros Heq. unfold orderForest.
  assert (orderTree cmp <$> ts = orderTree cmp' <$> ts) as ->.
  { apply list_fmap_ext. intros _ t _. by apply orderTree_ext. }
  apply stableSort_ext. intros a b _ _. apply Heq.
Qed.

(** A tree is held by every store that has the arrays of the first and
    agrees with it on the rows of the tree. *)
Lemma reprNode_frame h h' t :
  (∀ a arr, arrays h !! a = Some arr → arrays h' !! a = Some arr) →
  (∀ r, r ∈ rowsOf t → rowObjs h' !! r = rowObjs h !! r) →
  reprNode h t → reprNode h' t.
Proof.
  intros Harr. induction t as [row|row ts IH] using Tree_ind;
    intros Hrows Hrepr; inversion Hrepr as [? obj Hobj Hsub|? obj a ? Hobj Hsub Ha Hts];
    subst.
  - apply (repr_leaf _ _ obj); [|done]. rewrite Hrows; [done|]. by left.
  - apply (repr_inner _ _ obj a); [|done|by apply Harr|].
    { rewrite Hrows; [done|]. by left. }
    rewrite Forall_forall in IH, Hts. apply Forall_forall. intros t Ht.
    apply IH; [done| |by apply Hts].
    intros r Hr. apply Hrows. cbn. right.
    apply list_elem_of_bind. eauto.
Qed.

Lemma sortFns_agree sortTypes inst h1 h2 criteria funcs1 funcs2 x y :
  mapM (sortFn sortTypes inst h1) criteria = Some funcs1 →
  mapM (sortFn sortTypes inst h2) criteria = Some funcs2 →
  (∀ id, valueAt h1 x id = valueAt h2 x id) →
  (∀ id, valueAt h1 y id = valueAt h2 y id) →
  Forall2 (λ f f', f x y = f' x y) funcs1 funcs2.
Proof.
  intros H1%mapM_Some H2%mapM_Some Hx Hy. revert funcs2 H2.
  induction H1 as [|sort f1 criteria funcs1 Hf1 _ IH];
    intros funcs2 H2; inversion H2 as [|? f2 ? ? Hf2]; subst; [done|].
  constructor; [|by apply IH].
  unfold sortFn in Hf1, Hf2.
  destruct (find _ (columns inst)); [|done].
  injection Hf1 as <-. injection Hf2 as <-. by rewrite Hx, Hy.
Qed.

Lemma sortFns_defined sortTypes inst h1 h2 criteria :
  is_Some (mapM (sortFn sortTypes inst h1) criteria) →
  is_Some (mapM (sortFn sortTypes inst h2) criteria).
Proof.
  rewrite !mapM_is_Some. intros Hd. eapply Forall_impl; [exact Hd|].
  intros sort. cbn. unfold sortFn.
  by destruct (find (λ d, Column.id d = Sort.id sort) (columns inst)).
Qed.

Lemma rowCompare_agree sortTypes inst h1 h2 cmp1 cmp2 x y :
  rowCompare sortTypes inst h1 = Some cmp1 →
  rowCompare sortTypes inst h2 = Some cmp2 →
  (∀ id, valueAt h1 x id = valueAt h2 x id) →
  (∀ id, valueAt h1 y id = valueAt h2 y id) →
  cmp1 x y = cmp2 x y.
Proof.
  unfold rowCompare. intros H1 H2 Hx Hy.
  destruct (mapM (sortFn _ _ h1) _) as [funcs1|] eqn:Hf1; [|done].
  destruct (mapM (sortFn _ _ h2) _) as [funcs2|] eqn:Hf2; [|done].
  cbn in H1, H2. destruct (mapM (direction inst) _) as [dirs|]; [|done].
  injection H1 as <-. injection H2 as <-.
  apply composeFns_ext. by eapply sortFns_agree.
Qed.

Lemma rowCompare_defined sortTypes inst h1 h2 :
  is_Some (rowCompare sortTypes inst h1) →
  is_Some (rowCompare sortTypes inst h2).
Proof.
  unfold rowCompare. intros [cmp Hcmp].
  destruct (mapM (sortFn _ _ h1) _) as [funcs1|] eqn:Hf1; [|done].
  destruct (sortFns_defined sortTypes inst h1 h2 (sortBy inst)) as [? ->];
    [by rewrite Hf1|].
  cbn in *. destruct (mapM (direction inst) _); by eauto.
Qed.

Lemma rowCompare_extends sortTypes inst h h' cmp :
  extends h h' → rowCompare sortTypes inst h = Some cmp →
  ∃ cmp', rowCompare sortTypes inst h' = Some cmp'
          ∧ ∀ a b, cmp' a b = cmp a b.
Proof.
  intros Hext Hcmp.
  destruct (rowCompare_defined sortTypes inst h h') as [cmp' Hcmp'];
    [by rewrite Hcmp|].
  exists cmp'. split; [done|]. intros a b.
  eapply rowCompare_agree; [done..| |]; intros id;
    by apply extends_valueAt.
Qed.

Section forest.
Context (sortTypes : SortTypes) (inst : Instance).
Hypothesis Hnew : buildsNewArray inst.

Lemma arrays_setSubRows h row a : arrays (setSubRows h row a) = arrays h.
Proof. reflexivity. Qed.

Lemma rowObjs_setSubRows_ne h row a r :
  r ≠ row → rowObjs (setSubRows h row a) !! r = rowObjs h !! r.
Proof. intros Hne. cbn. by rewrite list_lookup_alter_ne. Qed.

Lemma sortSubRows_leaf rec h row obj :
  rowObjs h !! row = Some obj → subRows obj = None →
  sortSubRows rec h row = Some h.
Proof. intros Hobj Hsub. unfold sortSubRows. by rewrite Hobj; cbn; rewrite Hsub. Qed.

Lemma sortSubRows_inner rec h row obj sub hk sub' :
  rowObjs h !! row = Some obj → subRows obj = Some sub →
  rec h sub = Some (hk, sub') →
  sortSubRows rec h row = Some (setSubRows hk row sub').
Proof.
  intros Hobj Hsub Hrec. unfold sortSubRows.
  rewrite Hobj; cbn; rewrite Hsub; cbn. by rewrite Hrec.
Qed.

(** The loop over the sorted rows: the rows still to visit are as in [h],
    and every visited row ends up holding its ordered tree. *)
Lemma visit_forest fuel h cmp :
  (∀ hc a ts cmpc,
      rowCompare sortTypes inst hc = Some cmpc →
      repr hc a ts → NoDup (ts ≫= rowsOf) → (height ts ≤ fuel)%nat →
      ∃ hk out,
        sortData sortTypes inst fuel hc a = Some (hk, out)
        ∧ repr hk out (orderForest cmpc ts)
        ∧ (∀ r, r ∉ ts ≫= rowsOf → rowObjs hk !! r = rowObjs hc !! r)
        ∧ subRowsSince (length (arrays hc)) hk (ts ≫= rowsOf)) →
  rowCompare sortTypes inst h = Some cmp →
  ∀ todo hc,
    extends h hc →
    (∀ r, r ∈ todo ≫= rowsOf → rowObjs hc !! r = rowObjs h !! r) →
    Forall (reprNode h) todo →
    NoDup (todo ≫= rowsOf) →
    Forall (λ t, (depth t ≤ fuel)%nat) todo →
    ∃ h',
      visit (sortSubRows (sortData sortTypes inst fuel)) (root <$> todo) hc
        = Some h'
      ∧ extends hc h'
      ∧ Forall (reprNode h') (orderTree cmp <$> todo)
      ∧ (∀ r, r ∉ todo ≫= rowsOf → rowObjs h' !! r = rowObjs hc !! r)
      ∧ subRowsSince (length (arrays h)) h' (todo ≫= rowsOf).
Proof.
  intros IHfuel Hcmp todo.
  induction todo as [|t todo IH]; intros hc Hext Hsame Hrepr Hnodup Hdepth.
  { exists hc. split_and!; [done|apply extends_refl|constructor|done|].
    intros r o a Hr. by inversion Hr. }
  pose proof (extends_length _ _ Hext) as Hlen.
  apply Forall_cons in Hrepr as [Ht Hrepr].
  apply Forall_cons in Hdepth as [Hd Hdepth].
  rewrite bind_cons in Hnodup.
  apply NoDup_app in Hnodup as (Hnd_t & Hdisj & Hnd_todo).
  assert (∀ r, r ∈ rowsOf t → rowObjs hc !! r = rowObjs h !! r) as Hsame_t.
  { intros r Hr. apply Hsame. rewrite bind_cons, elem_of_app. by left. }
  assert (∀ r, r ∈ todo ≫= rowsOf → rowObjs hc !! r = rowObjs h !! r)
    as Hsame_todo.
  { intros r Hr. apply Hsame. rewrite bind_cons, elem_of_app. by right. }
  cbn [fmap list_fmap visit].
  inversion Ht as [row obj Hobj Hsub|row obj a ks Hobj Hsub Ha Hks]; subst.
  - (* a row without sub-rows *)
    cbn [root]. rewrite (sortSubRows_leaf _ hc row obj); [|by rewrite Hsame_t by left|done].
    cbn [mbind option_bind].
    destruct (IH hc) as (h' & Hloop & Hext' & Hdone & Hrest & Hfresh);
      [done..|].
    assert (rowObjs h' !! row = Some obj) as Hobj'.
    { rewrite Hrest by (intros Hin; by apply (Hdisj row); [left|]).
      rewrite (Hsame_t row) by (by left). done. }
    exists h'. split_and!; [done..| | |].
    + cbn. constructor; [|done]. by apply (repr_leaf _ _ obj).
    + intros r Hr. apply Hrest. intros Hin. apply Hr.
      rewrite bind_cons, elem_of_app. by right.
    + intros r o a Hr Ho Hs. rewrite bind_cons, elem_of_app in Hr.
      destruct Hr as [Hr|Hr]; [|by eapply Hfresh].
      cbn in Hr. apply list_elem_of_singleton in Hr as ->.
      rewrite Hobj' in Ho. injection Ho as <-. congruence.
  - (* a row that owns sub-rows *)
    cbn [root rowsOf] in *. apply NoDup_cons in Hnd_t as [Hrow Hnd_ks].
    destruct (rowCompare_extends _ _ _ _ _ Hext Hcmp) as (cmpc & Hcmpc & Heq).
    destruct (IHfuel hc a ks cmpc)
      as (hk & a' & Hcall & [Ha' Hks'] & Hrest_k & Hfresh_k);
      [done| |done|done|].
    { split; [by eapply extends_array|].
      rewrite Forall_forall in Hks. apply Forall_forall. intros k Hk.
      eapply reprNode_frame; [| |by apply Hks].
      - intros ??. by apply extends_array.
      - intros r Hr. apply Hsame_t. right. apply list_elem_of_bind. eauto. }
    rewrite (orderForest_ext cmpc cmp) in Ha', Hks' by done.
    pose proof (sortData_callSpec _ _ _ _ _ _ _ Hnew Hcall)
      as (Hext_k & Hout & _).
    destruct (extends_row hc hk row obj Hext_k) as (obj' & Hobj' & Hv & _).
    { rewrite (Hsame_t row) by (by left). done. }
    assert (sortSubRows (sortData sortTypes inst fuel) hc row
            = Some (setSubRows hk row a')) as Hstep.
    { apply (sortSubRows_inner _ hc row obj a); [|done..].
      by rewrite Hsame_t by left. }
    rewrite Hstep. cbn [mbind option_bind].
    assert (extends hc (setSubRows hk row a')) as Hext_s.
    { apply (sortSubRows_extends sortTypes inst
               (sortData sortTypes inst fuel) hc row); [|done].
      intros ????. by apply sortData_callSpec. }
    destruct (IH (setSubRows hk row a'))
      as (h' & Hloop & Hext' & Hdone & Hrest & Hfresh);
      [by eapply extends_trans| |done..|].
    { intros r Hr. rewrite rowObjs_setSubRows_ne.
      - rewrite Hrest_k; [by apply Hsame_todo|].
        intros Hin. apply (Hdisj r); [by right|done].
      - intros ->. apply (Hdisj row); [by left|done]. }
    assert (reprNode (setSubRows hk row a') (Node row (Some (orderForest cmp ks))))
      as Hnode.
    { apply (repr_inner _ _ {| values := values obj'; subRows := Some a' |} a').
      - cbn. by rewrite list_lookup_alter_eq, Hobj'.
      - done.
      - done.
      - rewrite Forall_forall in Hks'. apply Forall_forall. intros k Hk.
        eapply reprNode_frame; [| |by apply Hks'].
        + done.
        + intros r Hr. apply rowObjs_setSubRows_ne. intros ->.
          apply Hrow. rewrite <- (rowsOf_orderForest cmp ks).
          apply list_elem_of_bind. eauto. }
    exists h'. split_and!; [done|by eapply extends_trans| | |].
    + cbn [fmap list_fmap]. constructor; [|done].
      change (orderTree cmp (Node row (Some ks)))
        with (Node row (Some (orderForest cmp ks))).
      eapply reprNode_frame; [| |exact Hnode].
      * intros ??. by apply extends_array.
      * intros r Hr. apply Hrest. intros Hin. apply (Hdisj r); [|done].
        cbn [rowsOf] in Hr. rewrite (rowsOf_orderForest cmp ks) in Hr. done.
    + intros r Hr. rewrite bind_cons in Hr. cbn [rowsOf] in Hr.
      apply not_elem_of_app in Hr as [Hr1 Hr2].
      apply not_elem_of_cons in Hr1 as [Hr0 Hr1].
      rewrite Hrest by done. rewrite rowObjs_setSubRows_ne by done.
      by apply Hrest_k.
    + intros r o a2 Hr Ho Hs. rewrite bind_cons, elem_of_app in Hr.
      destruct Hr as [Hr|Hr]; [|by eapply Hfresh].
      cbn [rowsOf] in Hr. rewrite Hrest in Ho
        by (intros Hin; by apply (Hdisj r)).
      apply elem_of_cons in Hr as [->|Hr].
      * cbn in Ho. rewrite list_lookup_alter_eq, Hobj' in Ho.
        injection Ho as <-. cbn in Hs. injection Hs as <-. lia.
      * rewrite rowObjs_setSubRows_ne in Ho by (by intros ->).
        pose proof (Hfresh_k r o a2 Hr Ho Hs). lia.
Qed.

End forest.

(** Enough fuel for the height of the forest makes the call return, with
    the store holding the ordered forest at the returned array; rows
    outside the forest are left alone. *)
Lemma sortData_forest sortTypes inst fuel :
  orderByFn inst = None →
  ∀ h a ts cmp,
    rowCompare sortTypes inst h = Some cmp →
    repr h a ts → NoDup (ts ≫= rowsOf) → (height ts ≤ fuel)%nat →
    ∃ h' out,
      sortData sortTypes inst fuel h a = Some (h', out)
      ∧ repr h' out (orderForest cmp ts)
      ∧ (∀ r, r ∉ ts ≫= rowsOf → rowObjs h' !! r = rowObjs h !! r)
      ∧ subRowsSince (length (arrays h)) h' (ts ≫= rowsOf).
Proof.
  intros Hbuiltin. pose proof (builtin_buildsNewArray inst Hbuiltin) as Hnew.
  induction fuel as [|fuel IH];
    intros h a ts cmp Hcmp [Ha Hts] Hnodup Hheight.
  { unfold height in Hheight. lia. }
  rewrite sortData_step_new, Ha by done. cbn [mbind option_bind].
  rewrite orderLevel_builtin by done. rewrite Hcmp.
  cbn [fmap option_fmap option_map mbind option_bind].
  rewrite stableSort_fmap.
  set (sorted := stableSort (λ x y, cmp (root x) (root y)) ts).
  assert (sorted ≡ₚ ts) as Hperm by apply stableSort_perm.
  destruct (visit_forest sortTypes inst Hnew fuel h cmp IH Hcmp sorted
              (newArray h (root <$> sorted)).1)
    as (h2 & Hloop & Hext & Hdone & Hrest & Hfresh).
  - apply extends_newArray.
  - done.
  - by rewrite Hperm.
  - by rewrite Hperm.
  - rewrite Hperm. apply Forall_forall. intros t Ht.
    assert (depth t ≤ max_list (depth <$> ts))%nat
      by (by apply max_list_elem_of_le, list_elem_of_fmap_2).
    unfold height in Hheight. lia.
  - rewrite Hloop. cbn [mbind option_bind].
    eexists _, _. split; [done|]. split_and!.
    + rewrite orderForest_eq. fold sorted. split; [|done].
      rewrite roots_orderTree. eapply extends_array; [done|].
      cbn. by apply list_lookup_middle.
    + intros r Hr. rewrite Hrest; [done|]. by rewrite Hperm.
    + intros r o a2 Hr. apply Hfresh. by rewrite Hperm.
Qed.

Lemma subtree_mono t ts ts' :
  subtree t ts → (∀ x, x ∈ ts → x ∈ ts') → subtree t ts'.
Proof.
  intros [ts0 Hin|row ks ts0 Hin Hsub] Hincl.
  - apply subtree_here. by apply Hincl.
  - eapply subtree_below; [by apply Hincl|done].
Qed.

Lemma rowsOf_subtree t :
  ∀ row, row ∈ rowsOf t → ∃ sub, subtree (Node row sub) [t].
Proof.
  induction t as [r|r ks IH] using Tree_ind; intros row Hrow; cbn in Hrow.
  - apply list_elem_of_singleton in Hrow as ->. exists None.
    apply subtree_here. by left.
  - apply elem_of_cons in Hrow as [->|Hrow].
    { exists (Some ks). apply subtree_here. by left. }
    apply list_elem_of_bind in Hrow as (k & Hrow & Hk).
    rewrite Forall_forall in IH.
    destruct (IH k Hk row Hrow) as [sub Hsub]. exists sub.
    apply (subtree_below _ r ks); [by left|].
    eapply subtree_mono; [done|]. by intros x ->%list_elem_of_singleton.
Qed.

Lemma rows_subtree ts row :
  row ∈ ts ≫= rowsOf → ∃ sub, subtree (Node row sub) ts.
Proof.
  intros (t & Hrow & Ht)%list_elem_of_bind.
  destruct (rowsOf_subtree t row Hrow) as [sub Hsub]. exists sub.
  eapply subtree_mono; [done|]. by intros x ->%list_elem_of_singleton.
Qed.

Lemma subtree_reprNode h t ts :
  subtree t ts → Forall (reprNode h) ts → reprNode h t.
Proof.
  induction 1 as [ts Hin|row ks ts Hin _ IH]; intros Hts;
    rewrite Forall_forall in Hts.
  - by apply Hts.
  - apply IH. pose proof (Hts _ Hin) as Hnode. by inversion Hnode.
Qed.

Lemma subtree_orderForest cmp t ts :
  subtree t ts → subtree (orderTree cmp t) (orderForest cmp ts).
Proof.
  induction 1 as [ts Hin|row ks ts Hin _ IH].
  - apply subtree_here. unfold orderForest.
    rewrite stableSort_perm. by apply list_elem_of_fmap_2.
  - apply (subtree_below _ row (orderForest cmp ks)); [|done].
    unfold orderForest at 2. rewrite stableSort_perm.
    by apply (list_elem_of_fmap_2 (orderTree cmp)) in Hin.
Qed.

Lemma reprNode_subRowsOf h row sub :
  reprNode h (Node row sub) →
  subRowsOf h row = (λ ks : list Tree, root <$> ks) <$> sub.
Proof.
  intros Hnode. unfold subRowsOf.
  inversion Hnode as [? obj Hobj Hsub|? obj a ks Hobj Hsub Ha _]; subst;
    rewrite Hobj; cbn; rewrite Hsub; cbn; [done|by rewrite Ha].
Qed.

(** C8. On a store in which the rows reachable from the array form a
    forest, a call with enough fuel for the height of the forest returns,
    and the returned array holds the ordered forest: the level is ordered
    by the comparison of its own rows, and every row that owns sub-rows
    holds, as its new sub-rows, the ordering of its sub-rows by the same
    comparison.  The order of a level depends only on the values of the
    rows of that level: two stores that agree on them, whatever their
    descendants are, give the same order. *)
Theorem sortData_orders_every_level sortTypes inst :
  orderByFn inst = None →
  (∀ fuel h rows ts cmp,
      rowCompare sortTypes inst h = Some cmp →
      forest h rows ts →
      (height ts ≤ fuel)%nat →
      ∃ h' out,
        sortData sortTypes inst fuel h rows = Some (h', out)
        ∧ forest h' out (orderForest cmp ts)
        ∧ orderForest cmp ts
          = orderTree cmp <$> stableSort (λ a b, cmp (root a) (root b)) ts
        ∧ (∀ row, orderTree cmp (Node row None) = Node row None)
        ∧ (∀ row sub, orderTree cmp (Node row (Some sub))
                      = Node row (Some (orderForest cmp sub))))
  ∧ (∀ fuel1 fuel2 h1 h2 rows1 rows2 arr h1' h2' out1 out2,
        sortData sortTypes inst fuel1 h1 rows1 = Some (h1', out1) →
        sortData sortTypes inst fuel2 h2 rows2 = Some (h2', out2) →
        arrays h1 !! rows1 = Some arr →
        arrays h2 !! rows2 = Some arr →
        (∀ row id, row ∈ arr → valueAt h1 row id = valueAt h2 row id) →
        arrays h1' !! out1 = arrays h2' !! out2).
Proof.
  intros Hbuiltin. split.
  - intros fuel h rows ts cmp Hcmp [Hrepr Hnodup] Hheight.
    destruct (sortData_forest sortTypes inst fuel Hbuiltin h rows ts cmp)
      as (h' & out & Hcall & Hrepr' & _); [done..|].
    exists h', out. split_and!; [done| |apply orderForest_eq|done..].
    split; [done|]. by rewrite rowsOf_orderForest.
  - intros fuel1 fuel2 h1 h2 rows1 rows2 arr h1' h2' out1 out2
      Hcall1 Hcall2 Harr1 Harr2 Hvalues.
    apply sortData_callSpec in Hcall1
      as (_ & _ & arr1 & sorted1 & Harr1' & Hsorted1 & ->);
      [|by apply builtin_buildsNewArray].
    apply sortData_callSpec in Hcall2
      as (_ & _ & arr2 & sorted2 & Harr2' & Hsorted2 & ->);
      [|by apply builtin_buildsNewArray].
    rewrite Harr1 in Harr1'. injection Harr1' as <-.
    rewrite Harr2 in Harr2'. injection Harr2' as <-.
    rewrite orderLevel_builtin in Hsorted1, Hsorted2 by done.
    destruct (rowCompare sortTypes inst h1) as [cmp1|] eqn:Hcmp1; [|done].
    destruct (rowCompare sortTypes inst h2) as [cmp2|] eqn:Hcmp2; [|done].
    injection Hsorted1 as <-. injection Hsorted2 as <-. f_equal.
    apply stableSort_ext. intros x y Hx Hy.
    eapply rowCompare_agree; [done..| |]; intros id; by apply Hvalues.
Qed.

Lemma sortData_orders_every_level_witness :
  (orderByFn (table false false) = None
   ∧ rowCompare builtins (table false false) store = Some storeCompare
   ∧ forest store 0 storeForest
   ∧ (height storeForest ≤ 2)%nat)
  ∧ ∃ h' out,
      sortData builtins (table false false) 2 store 0%nat = Some (h', out)
      ∧ forest h' out (orderForest storeCompare storeForest)
      ∧ orderForest storeCompare storeForest
        = [Node 1%nat None;
           Node 0%nat (Some [Node 3%nat None; Node 2%nat None])].
Proof.
  assert (forest store 0 storeForest) as Hforest.
  { split; [split; [reflexivity|]|].
    - repeat constructor.
      + eapply (repr_inner _ _ _ 1%nat); [reflexivity..|].
        repeat constructor; by eapply repr_leaf.
      + by eapply repr_leaf.
    - by apply (bool_decide_unpack _). }
  assert (height storeForest ≤ 2)%nat as Hheight by (vm_compute; lia).
  split; [by split_and!|].
  destruct (sortData_orders_every_level builtins (table false false) eq_refl)
    as [Hordered _].
  destruct (Hordered 2%nat store 0%nat storeForest storeCompare eq_refl
              Hforest Hheight) as (h' & out & Hcall & Hforest' & _).
  exists h', out. split_and!; [done..|]. by vm_compute.
Defined.

(** ** What the ordering leaves alone *)

Lemma sortedRows_ordering sortTypes inst fuel h rows :
  manualSorting inst = false → sortBy inst ≠ [] →
  sortedRows sortTypes inst fuel h rows = sortData sortTypes inst fuel h rows.
Proof.
  intros Hmanual Hcriteria. unfold sortedRows. rewrite Hmanual.
  by destruct (sortBy inst).
Qed.

(** C2, as the code has it.  When sorting is manual or there is no
    criterion, the ordering operation returns its input array and leaves
    the store as it is.  Otherwise, with an [orderByFn] that builds a new
    array, as the built-in composition does, it returns an array allocated
    by the call, which holds what [orderByFn] answers for the rows of the
    input array, and it modifies no existing array: the input array and
    every [subRows] array of the input keep their elements and order.  It
    creates and deletes no row and leaves the values of every row as they
    are.  But it updates row objects in place: the [subRows] field of a row
    is left as it is or, for a row that owns sub-rows, reassigned to an
    array allocated by the call; a row without sub-rows is left as it is.
    With the built-in composition and a row forest, given fuel for its
    height, the call returns, the returned array holds the rows of the
    input array in sorted order, and every row of the forest that owned
    sub-rows owns, after the call, an array allocated by the call that
    holds these same sub-rows in sorted order; rows outside the forest are
    left as they are. *)
Theorem sortedRows_frame sortTypes inst :
  (∀ fuel h rows,
      manualSorting inst = true ∨ sortBy inst = [] →
      sortedRows sortTypes inst fuel h rows = Some (h, rows))
  ∧ (buildsNewArray inst →
     ∀ fuel h rows h' out,
       manualSorting inst = false → sortBy inst ≠ [] →
       sortedRows sortTypes inst fuel h rows = Some (h', out) →
       (∃ arr sorted,
           arrays h !! rows = Some arr
           ∧ orderLevel sortTypes inst h arr = Some sorted
           ∧ out = length (arrays h)
           ∧ arrays h' !! out = Some sorted)
       ∧ (∀ a arr, arrays h !! a = Some arr → arrays h' !! a = Some arr)
       ∧ length (rowObjs h') = length (rowObjs h)
       ∧ (∀ row o, rowObjs h !! row = Some o →
            ∃ o', rowObjs h' !! row = Some o'
                  ∧ values o' = values o
                  ∧ (subRows o' = subRows o
                     ∨ is_Some (subRows o)
                       ∧ ∃ a', subRows o' = Some a'
                               ∧ (length (arrays h) ≤ a'
                                  < length (arrays h'))%nat))
       ∧ (∀ row o, rowObjs h !! row = Some o → subRows o = None →
            rowObjs h' !! row = Some o))
  ∧ (orderByFn inst = None →
     ∀ fuel h rows ts cmp,
       manualSorting inst = false → sortBy inst ≠ [] →
       rowCompare sortTypes inst h = Some cmp →
       forest h rows ts →
       (height ts ≤ fuel)%nat →
       ∃ h' out,
         sortedRows sortTypes inst fuel h rows = Some (h', out)
         ∧ arrays h' !! out = Some (stableSort cmp (root <$> ts))
         ∧ (∀ row l, row ∈ ts ≫= rowsOf → subRowsOf h row = Some l →
              ∃ o' a', rowObjs h' !! row = Some o'
                       ∧ subRows o' = Some a'
                       ∧ (length (arrays h) ≤ a')%nat
                       ∧ arrays h' !! a' = Some (stableSort cmp l))
         ∧ (∀ row, row ∉ ts ≫= rowsOf →
              rowObjs h' !! row = rowObjs h !! row)).
Proof.
  split_and!.
  - intros fuel h rows Hshort. unfold sortedRows.
    destruct Hshort as [->| ->]; [done|]. by rewrite orb_true_r.
  - intros Hnew fuel h rows h' out Hmanual Hcriteria Hcall.
    rewrite sortedRows_ordering in Hcall by done.
    apply sortData_callSpec in Hcall
      as (Hext & -> & arr & sorted & Harr & Hsorted & Hout); [|done].
    split_and!.
    + by exists arr, sorted.
    + intros a l. by apply extends_array.
    + destruct Hext as [_ Hrows]. symmetry. by eapply Forall2_length.
    + intros row o Ho. by apply (extends_row h h').
    + intros row o Ho Hnone.
      destruct (extends_row h h' row o Hext Ho) as (o' & Ho' & Hv & Hs).
      rewrite Ho'. f_equal. destruct o as [v s], o' as [v' s']. cbn in *.
      destruct Hs as [->|[[a Ha] _]]; congruence.
  - intros Hbuiltin fuel h rows ts cmp Hmanual Hcriteria Hcmp
      [Hrepr Hnodup] Hheight.
    destruct (sortData_forest sortTypes inst fuel Hbuiltin h rows ts cmp)
      as (h' & out & Hcall & [Hout Hts'] & Hrest & Hfresh); [done..|].
    exists h', out. rewrite sortedRows_ordering by done.
    split_and!; [done|by rewrite Hout, roots_orderForest| |done].
    intros row l Hrow Hsub.
    destruct (rows_subtree ts row Hrow) as [sub Htree].
    rewrite (reprNode_subRowsOf h row sub) in Hsub
      by (eapply subtree_reprNode; [done|apply Hrepr]).
    destruct sub as [ks|]; [|done]. injection Hsub as <-.
    pose proof (subtree_reprNode h' _ _ (subtree_orderForest cmp _ _ Htree) Hts')
      as Hnode.
    change (orderTree cmp (Node row (Some ks)))
      with (Node row (Some (orderForest cmp ks))) in Hnode.
    inversion Hnode as [|? o' a' ? Ho' Hsub' Ha' _]; subst.
    exists o', a'. split_and!; [done..|by eapply Hfresh|].
    by rewrite Ha', roots_orderForest.
Qed.

Lemma sortedRows_frame_witness :
  (buildsNewArray (table false false)
   ∧ orderByFn (table false false) = None
   ∧ manualSorting (table false false) = false
   ∧ sortBy (table false false) ≠ []
   ∧ rowCompare builtins (table false false) store = Some storeCompare
   ∧ forest store 0 storeForest
   ∧ (height storeForest ≤ 2)%nat
   ∧ subRowsOf store 0 = Some [2; 3]%nat)
  ∧ sortedRows builtins (table false false) 2 store 0%nat
    = Some (storeSorted, 2%nat)
  ∧ arrays storeSorted !! 0%nat = Some [0; 1]%nat
  ∧ arrays storeSorted !! 1%nat = Some [2; 3]%nat
  ∧ arrays storeSorted !! 2%nat = Some [1; 0]%nat
  ∧ rowObjs storeSorted !! 1%nat = rowObjs store !! 1%nat
  ∧ ∃ o' a', rowObjs storeSorted !! 0%nat = Some o'
             ∧ subRows o' = Some a'
             ∧ (2 ≤ a')%nat
             ∧ arrays storeSorted !! a' = Some [3; 2]%nat.
Proof.
  assert (forest store 0 storeForest) as Hforest.
  { split; [split; [reflexivity|]|].
    - repeat constructor.
      + eapply (repr_inner _ _ _ 1%nat); [reflexivity..|].
        repeat constructor; by eapply repr_leaf.
      + by eapply repr_leaf.
    - by apply (bool_decide_unpack _). }
  assert (height storeForest ≤ 2)%nat as Hheight by (vm_compute; lia).
  assert (sortBy (table false false) ≠ []) as Hcriteria by done.
  split; [by split_and!|].
  destruct (sortedRows_frame builtins (table false false))
    as (_ & Hframe & Hordered).
  destruct (Hordered eq_refl 2%nat store 0%nat storeForest storeCompare
              eq_refl Hcriteria eq_refl Hforest Hheight)
    as (h' & out & Hcall & Hout & Hsub & _).
  assert (sortedRows builtins (table false false) 2 store 0%nat
          = Some (storeSorted, 2%nat)) as Hcall' by (vm_compute; reflexivity).
  rewrite Hcall' in Hcall. injection Hcall as <- <-.
  destruct (Hframe eq_refl 2%nat store 0%nat storeSorted 2%nat eq_refl
              Hcriteria Hcall')
    as (_ & Harrays & _ & _ & Hleaf).
  split_and!; [done|by apply Harrays|by apply Harrays|exact Hout|
               by apply Hleaf|].
  apply (Hsub 0%nat [2; 3]%nat); [by left|done].
Defined.

(** C2, as stated, fails: row [0] of [store] owns the sub-rows [[2; 3]];
    after the call the same row object presents them as [[3; 2]]. *)
Lemma sortedRows_reassigns_subRows :
  sortedRows builtins (table false false) 2 store 0%nat
    = Some (storeSorted, 2%nat)
  ∧ arrays store !! 0%nat = Some [0; 1]%nat
  ∧ subRowsOf store 0 = Some [2; 3]%nat
  ∧ subRowsOf storeSorted 0 = Some [3; 2]%nat
  ∧ rowObjs storeSorted !! 0%nat ≠ rowObjs store !! 0%nat.
Proof. split_and!; [by vm_compute..|]. by intros [=]. Qed.

(** * Further properties of the reducer *)

Section find_more.
Context {A : Type} (P : A → Prop) `{!∀ x, Decision (P x)}.

Lemma find_app l1 l2 :
  find P (l1 ++ l2) = orElse (find P l1) (find P l2).
Proof.
  induction l1 as [|x l1 IH]; [done|]. cbn [app].
  rewrite !find_cons. by destruct (decide (P x)).
Qed.

Lemma find_fmap (f : A → A) l :
  (∀ x, P (f x) ↔ P x) → find P (f <$> l) = f <$> find P l.
Proof.
  intros Hf. induction l as [|x l IH]; [done|].
  rewrite fmap_cons, !find_cons.
  destruct (decide (P x)) as [Hx|Hx], (decide (P (f x))) as [Hfx|Hfx];
    try done; [destruct Hfx|destruct Hx]; by apply Hf.
Qed.

Lemma find_filter_other (Q : A → Prop) `{!∀ x, Decision (Q x)} l :
  (∀ x, P x → Q x) → find P (filter Q l) = find P l.
Proof.
  intros HPQ. induction l as [|x l IH]; [done|].
  rewrite filter_cons, find_cons.
  destruct (decide (Q x)) as [Hq|Hq]; [rewrite find_cons|];
    destruct (decide (P x)) as [Hp|Hp]; try done. by apply HPQ in Hp.
Qed.

Lemma findIndex_eq_find l :
  findIndex P l = -1 ↔ find P l = None.
Proof.
  pose proof (findIndex_bounds P l) as Hb.
  destruct (find P l); [split; [lia|done]|done].
Qed.

End find_more.

Lemma sorted_cons s l id :
  sorted (s :: l) id = if decide (Sort.id s = id) then Some s else sorted l id.
Proof. exact (find_cons (λ d, Sort.id d = id) s l). Qed.

Lemma sorted_app l1 l2 id :
  sorted (l1 ++ l2) id = orElse (sorted l1 id) (sorted l2 id).
Proof. exact (find_app (λ d, Sort.id d = id) l1 l2). Qed.

Lemma sorted_singleton id desc :
  sorted [Sort.mk id desc] id = Some (Sort.mk id desc).
Proof. rewrite sorted_cons. cbn. by rewrite decide_True. Qed.

Lemma sortedIndex_cons s l id :
  sortedIndex (s :: l) id =
    if decide (Sort.id s = id) then 0
    else match sorted l id with
         | Some _ => sortedIndex l id + 1
         | None => -1
         end.
Proof. exact (findIndex_cons (λ d, Sort.id d = id) s l). Qed.

Lemma resolve_defined inst sortDescFirst old columnID desc multi :
  is_Some (resolve inst sortDescFirst old columnID desc multi).
Proof.
  unfold resolve.
  destruct (classify inst old columnID multi) eqn:Hc; cbn [isToggle andb];
    try by eauto.
  destruct (classify_Toggle_existing _ _ _ _ Hc) as [e ->].
  destruct (_ && _); cbn; by eauto.
Qed.

Lemma resolve_Toggle_existing inst sortDescFirst old columnID desc multi a :
  resolve inst sortDescFirst old columnID desc multi = Some a →
  a = Toggle ∨ a = Remove →
  is_Some (find (λ d, Sort.id d = columnID) old).
Proof.
  intros [->|[Hc _]]%resolve_cases Ha.
  - destruct Ha as [Ha|Ha]; [by eapply classify_Toggle_existing|].
    unfold classify in Ha. by repeat case_match.
  - by eapply classify_Toggle_existing.
Qed.

(** X1. [toggleSortBy] throws exactly when [columnID] names no column of
    the instance: for a known column it returns a list for every old list,
    direction and flag, and never reads [desc] of an undefined criterion. *)
Theorem toggleSortBy_defined_iff_known inst columnID desc multi old :
  is_Some (toggleSortBy inst columnID desc multi old)
  ↔ is_Some (find (λ d, Column.id d = columnID) (columns inst)).
Proof.
  unfold toggleSortBy.
  destruct (find _ (columns inst)) as [column|]; cbn;
    [|split; by intros [? [=]]].
  split; [by eauto|intros _].
  destruct (resolve_defined inst (Column.sortDescFirst column) old columnID
              desc multi) as [action Hres].
  rewrite Hres. cbn. destruct action; try by (cbn; eauto).
  destruct (resolve_Toggle_existing _ _ _ _ _ _ _ Hres) as [e He]; [by left|].
  erewrite apply_Toggle by done. by eauto.
Qed.

Lemma toggleSortBy_defined_iff_known_witness :
  is_Some (toggleSortBy (table false false) "B" None true
             [Sort.mk "A" (Some true)])
  ∧ ¬ is_Some (toggleSortBy (table false false) "C" None true
                 [Sort.mk "A" (Some true)]).
Proof.
  split.
  - by apply toggleSortBy_defined_iff_known.
  - intros [column Hcol]%toggleSortBy_defined_iff_known. done.
Defined.

Lemma toggle_inv inst columnID desc multi old new :
  toggleSortBy inst columnID desc multi old = Some new →
  ∃ column action,
    find (λ d, Column.id d = columnID) (columns inst) = Some column
    ∧ resolve inst (Column.sortDescFirst column) old columnID desc multi
      = Some action
    ∧ apply action (Column.sortDescFirst column) old columnID desc = Some new.
Proof.
  unfold toggleSortBy.
  destruct (find _ (columns inst)) as [column|]; [|done]. cbn.
  destruct (resolve _ _ _ _ _ _) as [action|] eqn:Hres; [|done]. cbn.
  intros Happly. by exists column, action.
Qed.

Lemma resolve_explicit inst sortDescFirst old columnID d multi :
  resolve inst sortDescFirst old columnID (Some d) multi
  = Some (classify inst old columnID multi).
Proof.
  unfold resolve. cbn [isDefined negb]. by rewrite !andb_false_r.
Qed.

Lemma resolve_not_Add_Replace inst sortDescFirst old columnID desc multi a :
  resolve inst sortDescFirst old columnID desc multi = Some a →
  a = Add ∨ a = Replace → classify inst old columnID multi = a.
Proof. intros [->|[_ ->]]%resolve_cases [?|?]; done. Qed.

(** X2. With an explicit direction the column ends up sorted in that
    direction: the criterion found for it afterwards is
    [{id: columnID, desc}], whatever the action. *)
Theorem toggle_explicit_sets_direction inst columnID d multi old new :
  toggleSortBy inst columnID (Some d) multi old = Some new →
  sorted new columnID = Some (Sort.mk columnID (Some d))
  ∧ sortedDesc new columnID = Some d.
Proof.
  intros (column & action & Hcol & Hres & Happly)%toggle_inv.
  assert (sorted new columnID = Some (Sort.mk columnID (Some d))) as Hs.
  { rewrite resolve_explicit in Hres. injection Hres as <-.
    destruct (classify inst old columnID multi) eqn:Hc.
    - injection Happly as <-. apply sorted_singleton.
    - injection Happly as <-. apply classify_Add_fresh in Hc.
      rewrite sorted_app. unfold sorted at 1. rewrite Hc. cbn.
      apply sorted_singleton.
    - destruct (classify_Toggle_existing _ _ _ _ Hc) as [e He].
      erewrite apply_Toggle in Happly by done. injection Happly as <-.
      unfold sorted. rewrite (find_fmap (λ d, Sort.id d = columnID)), He.
      + apply find_Some in He as (? & ? & _ & Hid & _). cbn.
        rewrite decide_True by done. by rewrite Hid.
      + intros x. by destruct (decide (Sort.id x = columnID)).
    - unfold classify in Hc. by repeat case_match. }
  split; [done|]. unfold sortedDesc. by rewrite Hs.
Qed.

Lemma toggle_explicit_sets_direction_witness :
  toggleSortBy (table false false) "A" (Some true) true
    [Sort.mk "B" None; Sort.mk "A" (Some false)]
  = Some [Sort.mk "B" None; Sort.mk "A" (Some true)]
  ∧ sortedDesc [Sort.mk "B" None; Sort.mk "A" (Some true)] "A" = Some true.
Proof.
  split; [reflexivity|].
  exact (proj2 (toggle_explicit_sets_direction (table false false) "A" true
                  true [Sort.mk "B" None; Sort.mk "A" (Some false)]
                  [Sort.mk "B" None; Sort.mk "A" (Some true)] eq_refl)).
Defined.

(** The map of the [Toggle] action with an explicit direction. *)
Lemma apply_Toggle_explicit sortDescFirst old columnID d :
  is_Some (sorted old columnID) →
  apply Toggle sortDescFirst old columnID (Some d)
  = Some ((λ s, if decide (Sort.id s = columnID)
                then Sort.mk (Sort.id s) (Some d) else s) <$> old).
Proof. intros [e He]. by erewrite apply_Toggle by exact He. Qed.

Lemma fmap_fixed {A} (f : A → A) (l : list A) :
  Forall (λ x, f x = x) l → f <$> l = l.
Proof. induction 1 as [|x l Hx _ IH]; [done|]. cbn. by rewrite Hx, IH. Qed.

Lemma classify_present inst l columnID multi :
  is_Some (sorted l columnID) →
  sortedIndex l columnID = Z.of_nat (length l) - 1 ∨
    negb (disableMultiSort inst) && multi = true →
  classify inst l columnID multi = Toggle.
Proof.
  intros [e He] Hlast. unfold classify. unfold sorted in He. rewrite He.
  destruct (negb (disableMultiSort inst) && multi); [done|].
  destruct Hlast as [Hlast|?]; [|done]. unfold sortedIndex in Hlast.
  rewrite Hlast. by rewrite Z.eqb_refl.
Qed.

Lemma classify_Toggle_last inst l columnID multi :
  classify inst l columnID multi = Toggle →
  sortedIndex l columnID = Z.of_nat (length l) - 1 ∨
    negb (disableMultiSort inst) && multi = true.
Proof.
  unfold classify, sortedIndex.
  destruct (negb (disableMultiSort inst) && multi); [by right|].
  destruct (_ =? _) eqn:Heq; [|done]. left. by apply Z.eqb_eq.
Qed.

Lemma status_fmap (f : Sort.t → Sort.t) l id :
  (∀ s, Sort.id (f s) = Sort.id s) →
  sorted (f <$> l) id = f <$> sorted l id
  ∧ sortedIndex (f <$> l) id = sortedIndex l id.
Proof.
  intros Hf. induction l as [|s l [IH1 IH2]]; [done|].
  rewrite fmap_cons, !sorted_cons, !sortedIndex_cons, Hf, IH1, IH2.
  destruct (decide (Sort.id s = id)); [done|]. split; [done|].
  by destruct (sorted l id).
Qed.

(** X3. A toggle with an explicit direction is idempotent: repeating the
    call with the same direction and the same [multi] gives the list that
    the first call gave. *)
Theorem toggle_explicit_idempotent inst columnID d multi old new :
  toggleSortBy inst columnID (Some d) multi old = Some new →
  toggleSortBy inst columnID (Some d) multi new = Some new.
Proof.
  intros (column & action & Hcol & Hres & Happly)%toggle_inv.
  rewrite resolve_explicit in Hres. injection Hres as <-.
  set (f := λ s, if decide (Sort.id s = columnID)
                 then Sort.mk (Sort.id s) (Some d) else s).
  assert (∀ s, Sort.id (f s) = Sort.id s) as Hid.
  { intros s. unfold f. by destruct (decide _). }
  assert (classify inst new columnID multi = Toggle ∧ f <$> new = new)
    as [Hc' Hfix].
  { destruct (classify inst old columnID multi) eqn:Hc.
    - injection Happly as <-. split.
      + apply classify_present; [by rewrite sorted_singleton|]. left.
        rewrite sortedIndex_cons. cbn. by rewrite decide_True.
      + cbn. unfold f. cbn. by rewrite decide_True.
    - injection Happly as <-.
      pose proof (classify_Add_fresh _ _ _ _ Hc) as Hfresh. split.
      + apply classify_present.
        * rewrite sorted_app, sorted_singleton. by destruct (sorted old _).
        * right. unfold classify in Hc.
          destruct (negb (disableMultiSort inst) && multi); [done|].
          by repeat case_match.
      + rewrite fmap_app. cbn. f_equal.
        * apply fmap_fixed. apply find_None in Hfresh.
          eapply Forall_impl; [exact Hfresh|]. intros s Hs. unfold f.
          by rewrite decide_False.
        * unfold f. cbn. by rewrite decide_True.
    - pose proof (classify_Toggle_existing _ _ _ _ Hc) as Hex.
      rewrite apply_Toggle_explicit in Happly by done.
      injection Happly as <-. fold f.
      destruct (status_fmap f old columnID Hid) as [Hs Hi]. split.
      + apply classify_present.
        * rewrite Hs. destruct Hex as [e He]. unfold sorted. by rewrite He.
        * rewrite Hi, length_fmap. by apply (classify_Toggle_last inst).
      + rewrite <- list_fmap_compose. apply list_fmap_ext. intros _ s _.
        cbn. unfold f. destruct (decide (Sort.id s = columnID)); cbn.
        * by rewrite decide_True.
        * by rewrite decide_False.
    - unfold classify in Hc. by repeat case_match. }
  unfold toggleSortBy. rewrite Hcol. cbn. rewrite resolve_explicit. cbn.
  rewrite Hc'. rewrite apply_Toggle_explicit.
  - fold f. by rewrite Hfix.
  - by eapply classify_Toggle_existing.
Qed.

Lemma toggle_explicit_idempotent_witness :
  toggleSortBy (table false false) "B" (Some true) true
    [Sort.mk "A" (Some false)]
  = Some [Sort.mk "A" (Some false); Sort.mk "B" (Some true)]
  ∧ toggleSortBy (table false false) "B" (Some true) true
      [Sort.mk "A" (Some false); Sort.mk "B" (Some true)]
    = Some [Sort.mk "A" (Some false); Sort.mk "B" (Some true)].
Proof.
  split; [reflexivity|].
  exact (toggle_explicit_idempotent (table false false) "B" true true
           [Sort.mk "A" (Some false)]
           [Sort.mk "A" (Some false); Sort.mk "B" (Some true)] eq_refl).
Defined.

Lemma filter_others_fmap (f : Sort.t → Sort.t) columnID (l : list Sort.t) :
  (∀ s, Sort.id s ≠ columnID → f s = s) →
  (∀ s, Sort.id (f s) = Sort.id s) →
  filter (λ s, Sort.id s ≠ columnID) (f <$> l)
  = filter (λ s, Sort.id s ≠ columnID) l.
Proof.
  intros Hother Hid. induction l as [|s l IH]; [done|].
  rewrite fmap_cons, !filter_cons, Hid, IH.
  destruct (decide (Sort.id s ≠ columnID)); [|done]. by rewrite Hother.
Qed.

Lemma filter_others_singleton columnID desc :
  filter (λ s, Sort.id s ≠ columnID) [Sort.mk columnID desc] = [].
Proof. rewrite filter_cons. cbn. rewrite decide_False; [done|tauto]. Qed.

Lemma apply_Toggle_others sortDescFirst old columnID desc new :
  is_Some (sorted old columnID) →
  apply Toggle sortDescFirst old columnID desc = Some new →
  filter (λ s, Sort.id s ≠ columnID) new
  = filter (λ s, Sort.id s ≠ columnID) old
  ∧ is_Some (sorted new columnID).
Proof.
  intros [e He] Happly. erewrite apply_Toggle in Happly by exact He.
  injection Happly as <-. split.
  - apply filter_others_fmap; intros s; by destruct (decide _).
  - destruct (status_fmap
                (λ d, if decide (Sort.id d = columnID)
                      then Sort.mk (Sort.id d)
                             (if isDefined desc then desc
                              else Some (not_ (Sort.desc e)))
                      else d) old columnID) as [-> _].
    + intros s. by destruct (decide _).
    + by rewrite He.
Qed.

Lemma resolve_multi_mode inst sortDescFirst old columnID desc multi action :
  negb (disableMultiSort inst) && multi = true →
  resolve inst sortDescFirst old columnID desc multi = Some action →
  action ≠ Replace.
Proof.
  intros Hmulti [->|[_ ->]]%resolve_cases; [|done].
  unfold classify. rewrite Hmulti. by destruct (isDefined _).
Qed.

(** X4. A toggle of one column never adds, alters or reorders a criterion
    of another column: the criteria of the other columns in the new list
    are criteria of the old list, in the same order.  When multi-sort is
    enabled and [multi] is set, none of them is dropped either. *)
Theorem toggle_keeps_other_columns inst columnID desc multi old new :
  toggleSortBy inst columnID desc multi old = Some new →
  filter (λ s, Sort.id s ≠ columnID) new
    `sublist_of` filter (λ s, Sort.id s ≠ columnID) old
  ∧ (negb (disableMultiSort inst) && multi = true →
     filter (λ s, Sort.id s ≠ columnID) new
     = filter (λ s, Sort.id s ≠ columnID) old).
Proof.
  intros (column & action & Hcol & Hres & Happly)%toggle_inv.
  assert (action ≠ Replace →
          filter (λ s, Sort.id s ≠ columnID) new
          = filter (λ s, Sort.id s ≠ columnID) old) as Hkeep.
  { intros Hne. destruct action; [done|..].
    - injection Happly as <-.
      by rewrite filter_app, filter_others_singleton, app_nil_r.
    - eapply apply_Toggle_others; [|done].
      eapply resolve_Toggle_existing; [done|by left].
    - injection Happly as <-. rewrite list_filter_filter.
      apply list_filter_iff. tauto. }
  split.
  - destruct action; try by rewrite Hkeep.
    injection Happly as <-. rewrite filter_others_singleton.
    apply sublist_nil_l.
  - intros Hmulti. apply Hkeep. by eapply resolve_multi_mode.
Qed.

Lemma toggle_keeps_other_columns_witness :
  toggleSortBy (table false false) "A" None true
    [Sort.mk "B" None; Sort.mk "A" (Some true)]
  = Some [Sort.mk "B" None]
  ∧ filter (λ s, Sort.id s ≠ "A") [Sort.mk "B" None]
    = filter (λ s, Sort.id s ≠ "A")
        [Sort.mk "B" None; Sort.mk "A" (Some true)].
Proof.
  split; [reflexivity|].
  by apply (toggle_keeps_other_columns (table false false) "A" None true
              [Sort.mk "B" None; Sort.mk "A" (Some true)]
              [Sort.mk "B" None] eq_refl).
Defined.

Lemma resolve_Remove_inv inst sortDescFirst old columnID desc multi :
  resolve inst sortDescFirst old columnID desc multi = Some Remove →
  desc = None
  ∧ disableSortRemove inst = false
  ∧ (multi = true → disableMultiRemove inst = false).
Proof.
  unfold resolve.
  destruct (classify inst old columnID multi) eqn:Hc; cbn [isToggle andb];
    try done.
  - destruct (disableSortRemove inst), desc, multi,
      (disableMultiRemove inst); cbn; try done; intros _; by split_and!.
  - unfold classify in Hc. by repeat case_match.
Qed.

(** X5. After a toggle the column has no criterion only when the action
    was a removal: then no direction was supplied, [disableSortRemove] is
    off, [disableMultiRemove] is off if [multi] is set, the column was
    sorted before, and the new list is the old one without the criteria of
    the column.  Hence with [disableSortRemove], with an explicit
    direction, or with [multi] and [disableMultiRemove], the column is
    sorted after every toggle and the list is never empty. *)
Theorem toggle_unsorts_only_by_removal inst columnID desc multi old new :
  toggleSortBy inst columnID desc multi old = Some new →
  (sorted new columnID = None →
   desc = None
   ∧ disableSortRemove inst = false
   ∧ (multi = true → disableMultiRemove inst = false)
   ∧ is_Some (sorted old columnID)
   ∧ new = filter (λ s, Sort.id s ≠ columnID) old)
  ∧ (disableSortRemove inst = true ∨ is_Some desc
     ∨ (multi = true ∧ disableMultiRemove inst = true) →
     is_Some (sorted new columnID) ∧ new ≠ []).
Proof.
  intros (column & action & Hcol & Hres & Happly)%toggle_inv.
  assert (sorted new columnID = None →
          desc = None
          ∧ disableSortRemove inst = false
          ∧ (multi = true → disableMultiRemove inst = false)
          ∧ is_Some (sorted old columnID)
          ∧ new = filter (λ s, Sort.id s ≠ columnID) old) as Hremoval.
  { intros Hnone. destruct action.
    - injection Happly as <-. by rewrite sorted_singleton in Hnone.
    - injection Happly as <-. rewrite sorted_app, sorted_singleton in Hnone.
      by destruct (sorted old columnID).
    - destruct (apply_Toggle_others _ _ _ _ _
                  (resolve_Toggle_existing _ _ _ _ _ _ _ Hres (or_introl eq_refl))
                  Happly) as [_ [? Hsome]]. congruence.
    - injection Happly as <-.
      destruct (resolve_Remove_inv _ _ _ _ _ _ Hres) as (? & ? & ?).
      split_and!; [done..| |done].
      eapply resolve_Toggle_existing; [done|by right]. }
  split; [done|].
  intros Hguard.
  assert (is_Some (sorted new columnID)) as Hsome.
  { destruct (sorted new columnID) eqn:Hs; [by eauto|].
    destruct (Hremoval eq_refl) as (-> & Hsr & Hmr & _).
    destruct Hguard as [?|[[? [=]]|[-> ?]]]; [congruence|].
    rewrite Hmr in *; done. }
  split; [done|]. intros ->. by destruct Hsome.
Qed.

Lemma toggle_unsorts_only_by_removal_witness :
  toggleSortBy (table true false) "A" None false [Sort.mk "A" (Some true)]
  = Some [Sort.mk "A" (Some false)]
  ∧ is_Some (sorted [Sort.mk "A" (Some false)] "A").
Proof.
  split; [reflexivity|].
  destruct (toggle_unsorts_only_by_removal (table true false) "A" None false
              [Sort.mk "A" (Some true)] [Sort.mk "A" (Some false)] eq_refl)
    as [_ Hkept].
  apply Hkept. by left.
Defined.

(** X6. The click cycle for every [sortDescFirst], set or not: in single
    mode with removal enabled, the first toggle without direction of an
    unsorted table gives [[{id, desc: sortDescFirst}]], the second gives
    [[{id, desc: !sortDescFirst}]] and the third gives the empty list. *)
Theorem click_cycle_any_first inst columnID column multi :
  negb (disableMultiSort inst) && multi = false →
  find (λ d, Column.id d = columnID) (columns inst) = Some column →
  disableSortRemove inst = false →
  (multi = true → disableMultiRemove inst = false) →
  toggles inst columnID None multi 1 []
  = Some [Sort.mk columnID (Column.sortDescFirst column)]
  ∧ toggles inst columnID None multi 2 []
    = Some [Sort.mk columnID (Some (not_ (Column.sortDescFirst column)))]
  ∧ toggles inst columnID None multi 3 [] = Some [].
Proof.
  intros Hsingle Hcol Hremove Hmulti.
  assert ((if multi then negb (disableMultiRemove inst) else true) = true)
    as Hgate.
  { destruct multi; [|done]. by rewrite Hmulti. }
  assert (toggleSortBy inst columnID None multi []
          = Some [Sort.mk columnID (Column.sortDescFirst column)]) as H1.
  { by rewrite (toggle_single_nil inst columnID column None multi). }
  assert (toggleSortBy inst columnID None multi
            [Sort.mk columnID (Column.sortDescFirst column)]
          = Some [Sort.mk columnID
                    (Some (not_ (Column.sortDescFirst column)))]) as H2.
  { rewrite (toggle_single_singleton inst columnID column multi) by done.
    rewrite Hremove, Hgate. by destruct (Column.sortDescFirst column) as [[]|]. }
  assert (toggleSortBy inst columnID None multi
            [Sort.mk columnID (Some (not_ (Column.sortDescFirst column)))]
          = Some []) as H3.
  { rewrite (toggle_single_singleton inst columnID column multi) by done.
    rewrite Hremove, Hgate. by destruct (Column.sortDescFirst column) as [[]|]. }
  unfold toggles. split_and!; cbn; rewrite H1; cbn; [done|..];
    rewrite H2; cbn; [done|]. by rewrite H3.
Qed.

Lemma click_cycle_any_first_witness :
  toggles (table false false) "B" None false 1 [] = Some [Sort.mk "B" None]
  ∧ toggles (table false false) "B" None false 2 []
    = Some [Sort.mk "B" (Some true)]
  ∧ toggles (table false false) "B" None false 3 [] = Some [].
Proof.
  exact (click_cycle_any_first (table false false) "B" colB false
           eq_refl eq_refl eq_refl (λ H, eq_refl)).
Defined.

(** X7. The removal gate reads the raw [multi] argument while the mode
    reads [!disableMultiSort && multi].  With multi-sort and multi-remove
    both disabled, a call with [multi] set therefore acts in single mode
    but never removes: on the list that holds the criterion of the column
    only it flips the direction, whatever the direction is. *)
Theorem raw_multi_blocks_removal inst columnID column d :
  disableMultiSort inst = true →
  disableMultiRemove inst = true →
  find (λ d, Column.id d = columnID) (columns inst) = Some column →
  toggleSortBy inst columnID None true [Sort.mk columnID d]
  = Some [Sort.mk columnID (Some (not_ d))]
  ∧ toggleSortBy inst columnID None true []
    = Some [Sort.mk columnID (Column.sortDescFirst column)].
Proof.
  intros Hsort Hremove Hcol. split.
  - rewrite (toggle_single_singleton inst columnID column true)
      by (by rewrite ?Hsort).
    rewrite Hremove. cbn. by rewrite andb_false_r.
  - by rewrite (toggle_single_nil inst columnID column None true)
      by (by rewrite ?Hsort).
Qed.

Lemma raw_multi_blocks_removal_witness :
  toggleSortBy tableSingle "A" None true [Sort.mk "A" (Some true)]
  = Some [Sort.mk "A" (Some false)]
  ∧ toggleSortBy tableSingle "A" None false [Sort.mk "A" (Some true)]
    = Some [].
Proof.
  split; [|reflexivity].
  exact (proj1 (raw_multi_blocks_removal tableSingle "A" colA (Some true)
                  eq_refl eq_refl eq_refl)).
Defined.

(** * Column status *)

Lemma sorted_Some_split l id s :
  sorted l id = Some s ↔
  ∃ pre post, l = pre ++ s :: post ∧ Sort.id s = id
              ∧ Forall (λ d, Sort.id d ≠ id) pre.
Proof. exact (find_Some (λ d, Sort.id d = id) l s). Qed.

Lemma sortedIndex_split pre s post :
  Forall (λ d, Sort.id d ≠ Sort.id s) pre →
  sortedIndex (pre ++ s :: post) (Sort.id s) = Z.of_nat (length pre).
Proof.
  intros Hpre.
  exact (findIndex_split (λ d, Sort.id d = Sort.id s) pre s post eq_refl Hpre).
Qed.

Lemma sortedIndex_None l id : sorted l id = None ↔ sortedIndex l id = -1.
Proof.
  symmetry. exact (findIndex_eq_find (λ d, Sort.id d = id) l).
Qed.

Lemma sortedIndex_app l1 l2 id :
  sortedIndex (l1 ++ l2) id =
    match sorted l1 id, sorted l2 id with
    | Some _, _ => sortedIndex l1 id
    | None, Some _ => Z.of_nat (length l1) + sortedIndex l2 id
    | None, None => -1
    end.
Proof.
  induction l1 as [|s l1 IH].
  - cbn [app length]. destruct (sorted l2 id) eqn:Hs; [cbn; lia|].
    by apply sortedIndex_None.
  - cbn [app length]. rewrite !sortedIndex_cons, sorted_cons, sorted_app, IH.
    destruct (decide (Sort.id s = id)); [done|].
    destruct (sorted l1 id), (sorted l2 id); cbn; lia.
Qed.

(** X8. The status fields of a column agree: [sortedIndex] is [-1] exactly
    when [sorted] is undefined; otherwise [sorted] is the criterion at
    position [sortedIndex], it is the first criterion with the column's
    identifier, and [sortedDesc] is its [desc]. *)
Theorem column_status_consistent l id :
  (sorted l id = None ↔ sortedIndex l id = -1)
  ∧ (sorted l id = None → sortedDesc l id = None)
  ∧ ∀ s, sorted l id = Some s →
      Sort.id s = id
      ∧ 0 ≤ sortedIndex l id < Z.of_nat (length l)
      ∧ l !! Z.to_nat (sortedIndex l id) = Some s
      ∧ sortedDesc l id = Sort.desc s
      ∧ ∀ j s', Z.of_nat j < sortedIndex l id → l !! j = Some s' →
                Sort.id s' ≠ id.
Proof.
  split_and!.
  - apply sortedIndex_None.
  - intros Hs. unfold sortedDesc. by rewrite Hs.
  - intros s Hs. pose proof Hs as Hsplit.
    apply sorted_Some_split in Hsplit as (pre & post & -> & <- & Hpre).
    rewrite sortedIndex_split by done. rewrite Nat2Z.id, length_app. cbn.
    split_and!; [done|lia|lia|by apply list_lookup_middle| |].
    + unfold sortedDesc. by rewrite Hs.
    + intros j s' Hj Hs'. rewrite lookup_app_l in Hs' by lia.
      by apply (Forall_lookup_1 _ _ _ _ Hpre Hs').
Qed.

Lemma column_status_consistent_witness :
  sorted [Sort.mk "B" None; Sort.mk "A" (Some true)] "A"
  = Some (Sort.mk "A" (Some true))
  ∧ sortedIndex [Sort.mk "B" None; Sort.mk "A" (Some true)] "A" = 1
  ∧ sortedDesc [Sort.mk "B" None; Sort.mk "A" (Some true)] "A" = Some true.
Proof.
  destruct (column_status_consistent
              [Sort.mk "B" None; Sort.mk "A" (Some true)] "A")
    as (_ & _ & Hsome).
  destruct (Hsome (Sort.mk "A" (Some true)) eq_refl)
    as (_ & _ & _ & Hdesc & _).
  split_and!; [reflexivity..|exact Hdesc].
Defined.

(** X9. In a list with one criterion per column, the status of the
    column of the criterion at position [i] is that criterion:
    [sortedIndex] is [i], the sort priority. *)
Theorem status_is_priority l i s :
  NoDup (Sort.id <$> l) →
  l !! i = Some s →
  sorted l (Sort.id s) = Some s
  ∧ sortedIndex l (Sort.id s) = Z.of_nat i
  ∧ sortedDesc l (Sort.id s) = Sort.desc s.
Proof.
  intros Hnodup Hi.
  assert (Forall (λ d, Sort.id d ≠ Sort.id s) (take i l)
          ∧ l = take i l ++ s :: drop (S i) l
          ∧ length (take i l) = i) as (Hpre & Hl & Hlen).
  { pose proof (take_drop_middle l i s Hi) as Hl.
    split_and!; [|done|].
    - rewrite <- Hl, fmap_app, fmap_cons in Hnodup.
      apply NoDup_app in Hnodup as (_ & Hne & _).
      apply Forall_forall. intros d Hd Heq.
      apply (Hne (Sort.id d)); [by apply list_elem_of_fmap_2|].
      rewrite Heq. by left.
    - apply length_take_le. apply lookup_lt_Some in Hi. lia. }
  assert (sorted l (Sort.id s) = Some s) as Hs.
  { apply sorted_Some_split. by exists (take i l), (drop (S i) l). }
  split_and!; [done| |].
  - rewrite Hl, sortedIndex_split by done. by rewrite Hlen.
  - unfold sortedDesc. by rewrite Hs.
Qed.

Lemma status_is_priority_witness :
  NoDup (Sort.id <$> [Sort.mk "B" None; Sort.mk "A" (Some true)])
  ∧ sortedIndex [Sort.mk "B" None; Sort.mk "A" (Some true)] "A" = 1.
Proof.
  assert (NoDup (Sort.id <$> [Sort.mk "B" None; Sort.mk "A" (Some true)]))
    as Hnodup by (by apply (bool_decide_unpack _)).
  split; [done|].
  by destruct (status_is_priority _ 1%nat (Sort.mk "A" (Some true))
                 Hnodup eq_refl) as (_ & Hindex & _).
Defined.

(** X10. After a multi toggle of a column without criterion (multi-sort
    enabled), the column has the lowest priority, [sortedIndex] being the
    old length, and the status of every other column is what it was. *)
Theorem multi_add_status inst columnID column desc old :
  disableMultiSort inst = false →
  find (λ d, Column.id d = columnID) (columns inst) = Some column →
  sorted old columnID = None →
  ∃ new,
    toggleSortBy inst columnID desc true old = Some new
    ∧ sortedIndex new columnID = Z.of_nat (length old)
    ∧ ∀ other, other ≠ columnID →
        sorted new other = sorted old other
        ∧ sortedIndex new other = sortedIndex old other
        ∧ sortedDesc new other = sortedDesc old other.
Proof.
  intros Hmulti Hcol Hfresh. eexists. split.
  { unfold toggleSortBy, resolve, classify. unfold sorted in Hfresh.
    rewrite Hcol, Hfresh, Hmulti. reflexivity. }
  split.
  - rewrite sortedIndex_app, Hfresh, sorted_singleton, sortedIndex_cons. cbn.
    rewrite decide_True by done. lia.
  - intros other Hother.
    assert (sorted [Sort.mk columnID
                      (if isDefined desc then desc
                       else Column.sortDescFirst column)] other = None)
      as Hnone.
    { rewrite sorted_cons. cbn. by rewrite decide_False. }
    assert (sorted (old ++ [Sort.mk columnID
                              (if isDefined desc then desc
                               else Column.sortDescFirst column)]) other
            = sorted old other) as Hs.
    { rewrite sorted_app, Hnone. by destruct (sorted old other). }
    split_and!; [done| |].
    + rewrite sortedIndex_app, Hnone.
      destruct (sorted old other) eqn:Ho; [done|].
      symmetry. by apply sortedIndex_None.
    + unfold sortedDesc. by rewrite Hs.
Qed.

Lemma multi_add_status_witness :
  sorted [Sort.mk "A" (Some false)] "B" = None
  ∧ ∃ new,
      toggleSortBy (table false false) "B" None true
        [Sort.mk "A" (Some false)] = Some new
      ∧ sortedIndex new "B" = 1
      ∧ sortedIndex new "A" = 0.
Proof.
  split; [reflexivity|].
  destruct (multi_add_status (table false false) "B" colB None
              [Sort.mk "A" (Some false)] eq_refl eq_refl eq_refl)
    as (new & Hnew & Hindex & Hothers).
  exists new. split_and!; [done..|].
  destruct (Hothers "A") as (_ & -> & _); done.
Defined.

(** X11. After a single-mode toggle that replaces (the criterion found for
    the column is not the last element), the column is the only sorted
    one: its [sortedIndex] is [0] and every other column is unsorted. *)
Theorem single_replace_status inst columnID column desc multi old :
  negb (disableMultiSort inst) && multi = false →
  find (λ d, Column.id d = columnID) (columns inst) = Some column →
  ¬ existingIsLast columnID old →
  ∃ new,
    toggleSortBy inst columnID desc multi old = Some new
    ∧ sortedIndex new columnID = 0
    ∧ ∀ other, other ≠ columnID →
        sorted new other = None
        ∧ sortedIndex new other = -1
        ∧ sortedDesc new other = None.
Proof.
  intros Hsingle Hcol Hlast. eexists. split.
  { destruct (classify_single inst columnID old multi Hsingle) as [_ Hc].
    unfold toggleSortBy, resolve. rewrite Hcol, (Hc Hlast). reflexivity. }
  split.
  - rewrite sortedIndex_cons. cbn. by rewrite decide_True.
  - intros other Hother.
    assert (sorted [Sort.mk columnID
                      (if isDefined desc then desc
                       else Column.sortDescFirst column)] other = None)
      as Hnone.
    { rewrite sorted_cons. cbn. by rewrite decide_False. }
    split_and!; [done|by apply sortedIndex_None|].
    unfold sortedDesc. by rewrite Hnone.
Qed.

Lemma single_replace_status_witness :
  ¬ existingIsLast "A" [Sort.mk "A" (Some false); Sort.mk "B" None]
  ∧ ∃ new,
      toggleSortBy (table false false) "A" None false
        [Sort.mk "A" (Some false); Sort.mk "B" None] = Some new
      ∧ sorted new "B" = None.
Proof.
  assert (¬ existingIsLast "A" [Sort.mk "A" (Some false); Sort.mk "B" None])
    as Hlast.
  { intros (pre & e & E & Hid & _).
    assert (last [Sort.mk "A" (Some false); Sort.mk "B" None] = Some e) as Hl
      by (rewrite E; apply last_snoc).
    cbn in Hl. injection Hl as <-. done. }
  split; [done|].
  destruct (single_replace_status (table false false) "A" colA None false
              [Sort.mk "A" (Some false); Sort.mk "B" None]
              eq_refl eq_refl Hlast) as (new & Hnew & _ & Hothers).
  exists new. split; [done|]. by destruct (Hothers "B") as (-> & _).
Defined.

(** X12. [sortedDesc] is undefined for an unsorted column and also for a
    sorted column whose criterion has an undefined [desc].  That is what
    the first toggle without direction produces on a column that does not
    set [sortDescFirst]: the column becomes sorted and its [sortedDesc]
    stays undefined. *)
Theorem unset_first_leaves_sortedDesc_undefined
    inst columnID column multi old :
  find (λ d, Column.id d = columnID) (columns inst) = Some column →
  Column.sortDescFirst column = None →
  sorted old columnID = None →
  ∃ new,
    toggleSortBy inst columnID None multi old = Some new
    ∧ sorted new columnID = Some (Sort.mk columnID None)
    ∧ sortedDesc new columnID = None
    ∧ sortedDesc old columnID = None.
Proof.
  intros Hcol Hfirst Hfresh.
  assert (classify inst old columnID multi = Add
          ∨ classify inst old columnID multi = Replace) as Hc.
  { unfold classify. unfold sorted in Hfresh. rewrite Hfresh. cbn.
    by repeat case_match; auto. }
  assert (∃ new, toggleSortBy inst columnID None multi old = Some new
                 ∧ sorted new columnID = Some (Sort.mk columnID None))
    as (new & Hnew & Hs).
  { unfold toggleSortBy, resolve. rewrite Hcol. cbn.
    destruct Hc as [-> | ->]; cbn; rewrite Hfirst; eexists; (split; [done|]).
    - rewrite sorted_app, Hfresh. apply sorted_singleton.
    - apply sorted_singleton. }
  exists new. split_and!; [done..| |]; unfold sortedDesc.
  - by rewrite Hs.
  - by rewrite Hfresh.
Qed.

Lemma unset_first_leaves_sortedDesc_undefined_witness :
  (Column.sortDescFirst colB = None
   ∧ sorted [Sort.mk "A" (Some false)] "B" = None)
  ∧ ∃ new,
      toggleSortBy (table false false) "B" None true
        [Sort.mk "A" (Some false)] = Some new
      ∧ sorted new "B" = Some (Sort.mk "B" None)
      ∧ sortedDesc new "B" = None.
Proof.
  split; [by split|].
  destruct (unset_first_leaves_sortedDesc_undefined (table false false) "B"
              colB true [Sort.mk "A" (Some false)] eq_refl eq_refl eq_refl)
    as (new & Hnew & Hs & Hd & _).
  by exists new.
Defined.

(** * Column decoration *)

(** X13. A column without accessor cannot be sorted, whatever
    [getFirstDefined] answers.  When [getFirstDefined] answers the first of
    its arguments that is not undefined, [canSort] is true exactly when
    the column has an accessor and neither the column's nor the table's
    [disableSorting] is [true]; only then does the column get a
    [toggleSortBy] and its toggle props an [onClick]. *)
Theorem canSort_characterisation inst getFirstDefined id :
  (∀ columnDisableSorting disableSorting,
      canSort getFirstDefined false columnDisableSorting disableSorting
      = Some false)
  ∧ ((∀ args, getFirstDefined args = firstDefined args) →
     ∀ accessor columnDisableSorting disableSorting,
       canSort getFirstDefined accessor columnDisableSorting disableSorting
       = Some (accessor && negb columnDisableSorting && negb disableSorting)
       ∧ (is_Some (onClick inst
                     (canSort getFirstDefined accessor columnDisableSorting
                        disableSorting) id)
          ↔ accessor = true ∧ columnDisableSorting = false
            ∧ disableSorting = false)
       ∧ (is_Some (columnToggleSortBy inst
                     (canSort getFirstDefined accessor columnDisableSorting
                        disableSorting) id)
          ↔ accessor = true ∧ columnDisableSorting = false
            ∧ disableSorting = false)).
Proof.
  split; [done|]. intros Hfirst accessor cds ds.
  assert (canSort getFirstDefined accessor cds ds
          = Some (accessor && negb cds && negb ds)) as ->.
  { unfold canSort. rewrite Hfirst. by destruct accessor, cds, ds. }
  split; [done|]. unfold onClick, columnToggleSortBy.
  destruct accessor, cds, ds; cbn; split; split;
    first [ by eauto | by intros [? [=]] | by intros (? & ? & ?) ].
Qed.

Lemma canSort_characterisation_witness :
  (∀ args : list (option bool), firstDefined args = firstDefined args)
  ∧ canSort firstDefined true false true = Some false
  ∧ canSort firstDefined true false false = Some true.
Proof.
  split; [done|].
  destruct (canSort_characterisation (table false false) firstDefined "A")
    as [_ Hcan].
  split.
  - by destruct (Hcan (λ _, eq_refl) true false true) as [-> _].
  - by destruct (Hcan (λ _, eq_refl) true false false) as [-> _].
Defined.

Lemma toggle_without_multi_ignores_multiRemove inst off id desc old :
  toggleSortBy (withMultiRemove inst off) id desc false old
  = toggleSortBy inst id desc false old.
Proof. reflexivity. Qed.

(** X14. The click handler toggles without direction, with [multi] set
    only when multi-sort is enabled and shift is held.  So when multi-sort
    is disabled a shift-click does what a plain click does, and
    [disableMultiRemove] has no influence on a click unless multi-sort is
    enabled and shift is held. *)
Theorem click_handler_multi inst canSort id handler :
  onClick inst canSort id = Some handler →
  (∀ shiftKey old,
      handler shiftKey old
      = toggleSortBy inst id None (negb (disableMultiSort inst) && shiftKey)
          old)
  ∧ (disableMultiSort inst = true →
     ∀ shiftKey old, handler shiftKey old = handler false old)
  ∧ (∀ off handler' shiftKey old,
        onClick (withMultiRemove inst off) canSort id = Some handler' →
        shiftKey = false ∨ disableMultiSort inst = true →
        handler' shiftKey old = handler shiftKey old).
Proof.
  unfold onClick, columnToggleSortBy.
  destruct (truthy canSort); [|done]. intros [= <-]. cbn.
  split_and!.
  - done.
  - intros Hoff shiftKey old. by rewrite Hoff.
  - intros off handler' shiftKey old [= <-] Hplain. cbn.
    assert (negb (disableMultiSort inst) && shiftKey = false) as ->.
    { destruct Hplain as [-> | ->]; [apply andb_false_r|done]. }
    apply toggle_without_multi_ignores_multiRemove.
Qed.

Lemma click_handler_multi_witness :
  ∃ handler,
    onClick tableSingle (Some true) "A" = Some handler
    ∧ handler true [Sort.mk "A" (Some true)] = Some []
    ∧ handler true [Sort.mk "A" (Some true)]
      = handler false [Sort.mk "A" (Some true)].
Proof.
  destruct (onClick tableSingle (Some true) "A") as [handler|] eqn:Hclick;
    [|by cbv in Hclick].
  exists handler.
  destruct (click_handler_multi _ _ _ _ Hclick) as (Hcall & Hshift & _).
  split; [done|]. split; [by rewrite Hcall|by apply Hshift].
Defined.

(** * Further properties of the ordering engine *)

Lemma orderLevel_unknown sortTypes inst h arr sort :
  sort ∈ sortBy inst →
  find (λ d, Column.id d = Sort.id sort) (columns inst) = None →
  orderLevel sortTypes inst h arr = None.
Proof.
  intros Hin Hcol. unfold orderLevel.
  assert (mapM (sortFn sortTypes inst h) (sortBy inst) = None) as ->; [|done].
  apply mapM_None, Exists_exists. exists sort. split; [done|].
  unfold sortFn. by rewrite Hcol.
Qed.

(** X15. A criterion that names no column of the instance makes the
    ordering throw, whatever the rows are, even for an empty array: the
    column is looked up and destructured while the comparators are built.
    Manual sorting returns before that and does not throw. *)
Theorem unknown_criterion_throws sortTypes inst sort :
  sort ∈ sortBy inst →
  find (λ d, Column.id d = Sort.id sort) (columns inst) = None →
  (∀ fuel h rows, sortData sortTypes inst fuel h rows = None)
  ∧ (∀ fuel h rows,
        sortedRows sortTypes inst fuel h rows
        = if manualSorting inst then Some (h, rows) else None).
Proof.
  intros Hin Hcol.
  assert (∀ fuel h rows, sortData sortTypes inst fuel h rows = None) as Hthrow.
  { intros [|fuel] h rows; [done|]. cbn [sortData].
    destruct (arrays h !! rows) as [arr|]; [|done]. cbn.
    by rewrite (orderLevel_unknown _ _ _ _ sort). }
  split; [done|]. intros fuel h rows. unfold sortedRows.
  destruct (manualSorting inst); [done|]. cbn.
  destruct (sortBy inst) as [|s l]; [by inversion Hin|]. by cbn.
Qed.

Lemma unknown_criterion_throws_witness :
  (Sort.mk "C" None ∈ sortBy tableUnknown
   ∧ find (λ d, Column.id d = "C") (columns tableUnknown) = None)
  ∧ sortData builtins tableUnknown 5 store 0%nat = None.
Proof.
  assert (Sort.mk "C" None ∈ sortBy tableUnknown) as Hin
    by (cbn; right; left).
  split; [by split|].
  by destruct (unknown_criterion_throws builtins tableUnknown
                 (Sort.mk "C" None) Hin eq_refl) as [-> _].
Defined.

Lemma forEach_leaves rec arr sorted h :
  arrays h !! arr = Some sorted →
  (∀ row, row ∈ sorted →
          ∃ obj, rowObjs h !! row = Some obj ∧ subRows obj = None) →
  forEach (sortSubRows rec) arr h = Some h.
Proof.
  intros Harr Hleaves. unfold forEach. rewrite Harr. cbn [mbind option_bind].
  assert (∀ post pre, sorted = pre ++ post →
            forEachFrom (sortSubRows rec) arr (length post) (length pre) h
            = Some h) as Hloop; [|by apply (Hloop sorted [])].
  induction post as [|row post IH]; intros pre Hsplit; [done|].
  cbn [length forEachFrom]. rewrite Harr. cbn [mbind option_bind].
  rewrite Hsplit, list_lookup_middle by done.
  destruct (Hleaves row) as (obj & Hobj & Hsub).
  { rewrite Hsplit, elem_of_app. right. by left. }
  rewrite (sortSubRows_leaf rec h row obj) by done. cbn [mbind option_bind].
  rewrite <- (IH (pre ++ [row])).
  - by rewrite length_app, Nat.add_1_r.
  - by rewrite <- app_assoc.
Qed.

(** X16. On a level whose rows own no sub-rows the call returns after
    this one level, with one unit of fuel, and does nothing but store the
    answer of [orderByFn]; no row object changes.  With an [orderByFn]
    that builds a new array (the built-in one does) the store only gains
    that array, which is returned, and every existing array is as it was.
    With an [orderByFn] that answers in the array it was given, that array
    holds the answer and is itself returned. *)
Theorem flat_level_stores_answer sortTypes inst fuel h rows arr sorted :
  arrays h !! rows = Some arr →
  orderLevel sortTypes inst h arr = Some sorted →
  (∀ row, row ∈ sorted →
          ∃ obj, rowObjs h !! row = Some obj ∧ subRows obj = None) →
  sortData sortTypes inst (S fuel) h rows
  = Some match placement (default defaultOrderByFn (orderByFn inst)) with
         | NewArray =>
             ({| rowObjs := rowObjs h; arrays := arrays h ++ [sorted] |},
              length (arrays h))
         | SameArray =>
             ({| rowObjs := rowObjs h;
                 arrays := <[rows := sorted]> (arrays h) |},
              rows)
         end.
Proof.
  intros Harr Hsorted Hleaves. rewrite sortData_step, Harr. cbn.
  rewrite Hsorted. cbn. unfold storeAnswer.
  destruct (placement _); cbn [fst snd newArray setArray].
  - rewrite (forEach_leaves _ _ sorted); [done| |done].
    cbn. by apply list_lookup_middle.
  - rewrite (forEach_leaves _ _ sorted); [done| |done].
    cbn. rewrite list_lookup_insert_eq; [done|]. by eapply lookup_lt_Some.
Qed.

Lemma flat_level_stores_answer_witness :
  (arrays tieStore !! 0%nat = Some [0; 1; 2]%nat
   ∧ orderLevel builtins (table false false) tieStore [0; 1; 2]%nat
     = Some [1; 0; 2]%nat
   ∧ orderLevel builtins tableInPlace tieStore [0; 1; 2]%nat
     = Some [1; 0; 2]%nat)
  ∧ sortData builtins (table false false) 1 tieStore 0%nat
    = Some (tieSorted, 1%nat)
  ∧ sortData builtins tableInPlace 1 tieStore 0%nat
    = Some (tieSortedInPlace, 0%nat).
Proof.
  assert (∀ row, row ∈ [1; 0; 2]%nat →
            ∃ obj, rowObjs tieStore !! row = Some obj ∧ subRows obj = None)
    as Hleaves.
  { intros row Hrow.
    repeat (apply elem_of_cons in Hrow as [->|Hrow]; [by eexists|]).
    by inversion Hrow. }
  split; [by split_and!|]. split.
  - exact (flat_level_stores_answer builtins (table false false) 0 tieStore
             0%nat [0; 1; 2]%nat [1; 0; 2]%nat eq_refl eq_refl Hleaves).
  - exact (flat_level_stores_answer builtins tableInPlace 0 tieStore
             0%nat [0; 1; 2]%nat [1; 0; 2]%nat eq_refl eq_refl Hleaves).
Defined.

Lemma setArray_perm h rows arr sorted :
  arrays h !! rows = Some arr → sorted ≡ₚ arr →
  Forall2 (≡ₚ) (arrays h) (arrays (setArray h rows sorted)).
Proof.
  intros Harr Hperm.
  assert (Forall2 (≡ₚ) (<[rows := arr]> (arrays h))
                       (<[rows := sorted]> (arrays h))) as Hins.
  { apply Forall2_insert; [|done]. apply Forall_Forall2_diag, Forall_forall.
    by intros l _. }
  by rewrite list_insert_id in Hins.
Qed.

Lemma forEach_arrays_perm f arr h h' :
  (∀ hc row hc', f hc row = Some hc' →
                 Forall2 (≡ₚ) (arrays hc) (arrays hc')) →
  forEach f arr h = Some h' → Forall2 (≡ₚ) (arrays h) (arrays h').
Proof.
  intros Hf. unfold forEach. destruct (arrays h !! arr) as [l|]; [|done].
  cbn [mbind option_bind]. generalize (length l) 0%nat. intros todo.
  revert h. induction todo as [|todo IH]; intros h k; cbn [forEachFrom].
  - intros [= <-]. apply Forall_Forall2_diag, Forall_forall. by intros ? _.
  - destruct (arrays h !! arr ≫= _) as [row|]; [|by apply IH].
    destruct (f h row) as [hc|] eqn:Hrow; [|done]. cbn. intros Hrest.
    eapply Forall2_trans; [|by eapply Hf|by eapply IH].
    intros l1 l2 l3. apply perm_trans.
Qed.

(** With an [orderByFn] that rearranges, in place, the array it is given,
    a call returns that array, and every array of the store holds after
    the call a rearrangement of what it held before. *)
Lemma sortData_sameArray sortTypes inst fuel h rows h' out :
  placement (default defaultOrderByFn (orderByFn inst)) = SameArray →
  (∀ arr funcs dirs,
      default defaultOrderByFn (orderByFn inst) arr funcs dirs ≡ₚ arr) →
  sortData sortTypes inst fuel h rows = Some (h', out) →
  out = rows ∧ Forall2 (≡ₚ) (arrays h) (arrays h').
Proof.
  intros Hsame Hperm. revert h rows h' out.
  induction fuel as [|fuel IH]; [done|].
  intros h rows h' out. rewrite sortData_step.
  destruct (arrays h !! rows) as [arr|] eqn:Harr; [|done]. cbn.
  destruct (orderLevel sortTypes inst h arr) as [sorted|] eqn:Hsorted;
    [|done]. cbn. rewrite storeAnswer_same by done. cbn [fst snd].
  destruct (forEach _ rows _) as [h2|] eqn:Hloop; [|done]. cbn.
  intros [= <- <-]. split; [done|].
  assert (sorted ≡ₚ arr) as Hsorted_perm.
  { unfold orderLevel in Hsorted.
    destruct (mapM (sortFn _ _ _) _); [|done].
    destruct (mapM (direction _) _); [|done].
    injection Hsorted as <-. apply Hperm. }
  eapply Forall2_trans; [|by apply (setArray_perm h rows arr sorted)|].
  { intros l1 l2 l3. apply perm_trans. }
  eapply forEach_arrays_perm; [|exact Hloop].
  intros hc row hc'. unfold sortSubRows.
  destruct (rowObjs hc !! row) as [obj|]; [|done]. cbn.
  destruct (subRows obj) as [sub|].
  - destruct (sortData sortTypes inst fuel hc sub) as [[hk sub']|] eqn:Hcall;
      [|done]. cbn. intros [= <-]. cbn. by apply IH in Hcall as [_ ?].
  - intros [= <-]. apply Forall_Forall2_diag, Forall_forall. by intros l _.
Qed.

(** X17. The rows that [useMain] returns, when [orderByFn] answers a
    rearrangement of the array it is given (as the built-in one does):
    [preSortedRows] is the input array and [rows] holds a rearrangement of
    the elements of the input, so no row is lost or duplicated at the top
    level.  With an [orderByFn] that builds a new array, [preSortedRows]
    still holds its elements in their order; with one that answers in the
    array it was given, [rows] and [preSortedRows] are the same array. *)
Theorem useMain_rows_rearranged sortTypes inst fuel h rows h' main arr :
  (∀ arr funcs dirs,
      default defaultOrderByFn (orderByFn inst) arr funcs dirs ≡ₚ arr) →
  useMain sortTypes inst fuel h rows = Some (h', main) →
  arrays h !! rows = Some arr →
  Main.preSortedRows main = rows
  ∧ (∃ arr', arrays h' !! Main.rows main = Some arr' ∧ arr' ≡ₚ arr)
  ∧ match placement (default defaultOrderByFn (orderByFn inst)) with
    | NewArray => arrays h' !! Main.preSortedRows main = Some arr
    | SameArray => Main.rows main = Main.preSortedRows main
    end.
Proof.
  intros Hperm Hmain Harr. unfold useMain in Hmain.
  destruct (sortedRows _ _ _ _ _) as [[h2 out]|] eqn:Hcall; [|done].
  injection Hmain as <- <-. cbn. unfold sortedRows in Hcall.
  destruct (_ || _).
  - injection Hcall as <- <-. split_and!; [done|by exists arr|].
    by destruct (placement _).
  - destruct (placement _) eqn:Hplace.
    + apply sortData_callSpec in Hcall
        as (Hext & -> & arr' & sorted & Harr' & Hsorted & Hout); [|done].
      rewrite Harr in Harr'. injection Harr' as <-.
      split_and!; [done| |by eapply extends_array].
      exists sorted. split; [done|]. unfold orderLevel in Hsorted.
      destruct (mapM (sortFn _ _ _) _); [|done].
      destruct (mapM (direction _) _); [|done].
      injection Hsorted as <-. apply Hperm.
    + apply sortData_sameArray in Hcall as [-> Harrays]; [|done..].
      split_and!; [done| |done].
      destruct (Forall2_lookup_l _ _ _ _ _ Harrays Harr)
        as (arr' & Harr' & Hperm').
      by exists arr'.
Qed.

Lemma useMain_rows_rearranged_witness :
  (useMain builtins (table false false) 2 store 0%nat
   = Some (storeSorted, Main.mk 2 0)
   ∧ useMain builtins tableInPlace 2 store 0%nat
     = Some (storeSortedInPlace, Main.mk 0 0))
  ∧ arrays storeSorted !! 0%nat = Some [0; 1]%nat
  ∧ (∃ arr', arrays storeSorted !! 2%nat = Some arr' ∧ arr' ≡ₚ [0; 1]%nat)
  ∧ (∃ arr', arrays storeSortedInPlace !! 0%nat = Some arr'
             ∧ arr' ≡ₚ [0; 1]%nat).
Proof.
  assert (useMain builtins (table false false) 2 store 0%nat
          = Some (storeSorted, Main.mk 2 0)) as Hmain
    by (vm_compute; reflexivity).
  assert (useMain builtins tableInPlace 2 store 0%nat
          = Some (storeSortedInPlace, Main.mk 0 0)) as Hmain'
    by (vm_compute; reflexivity).
  split; [done|].
  destruct (useMain_rows_rearranged builtins (table false false) 2 store
              0%nat storeSorted (Main.mk 2 0) [0; 1]%nat)
    as (_ & Hrows & Hpre);
    [intros arr funcs dirs; apply stableSort_perm|done|done|].
  destruct (useMain_rows_rearranged builtins tableInPlace 2 store
              0%nat storeSortedInPlace (Main.mk 0 0) [0; 1]%nat)
    as (_ & Hrows' & _);
    [intros arr funcs dirs; apply stableSort_perm|done|done|].
  by split_and!.
Defined.

(** X18. In a forest every row keeps its sub-rows: after the call a row
    of the forest that owned sub-rows presents a rearrangement of the very
    same sub-rows, and a row that owned none still owns none.  No row
    changes parent, and none is lost or duplicated at any level. *)
Theorem forest_rows_keep_their_subRows
    sortTypes inst fuel h rows ts cmp h' out :
  orderByFn inst = None →
  rowCompare sortTypes inst h = Some cmp →
  forest h rows ts →
  (height ts ≤ fuel)%nat →
  sortData sortTypes inst fuel h rows = Some (h', out) →
  ∀ row, row ∈ ts ≫= rowsOf →
    match subRowsOf h row, subRowsOf h' row with
    | Some l, Some l' => l' ≡ₚ l
    | None, None => True
    | _, _ => False
    end.
Proof.
  intros Hbuiltin Hcmp [[Harr Hts] Hnodup] Hheight Hcall row Hrow.
  destruct (sortData_forest sortTypes inst fuel Hbuiltin h rows ts cmp)
    as (h2 & out2 & Hcall2 & [_ Hts'] & _); [done..|].
  rewrite Hcall in Hcall2. injection Hcall2 as <- <-.
  destruct (rows_subtree ts row Hrow) as [sub Hsub].
  rewrite (reprNode_subRowsOf h row sub)
    by (by eapply subtree_reprNode).
  pose proof (subtree_reprNode h' _ _ (subtree_orderForest cmp _ _ Hsub) Hts')
    as Hnode'.
  destruct sub as [ks|].
  - change (orderTree cmp (Node row (Some ks)))
      with (Node row (Some (orderForest cmp ks))) in Hnode'.
    rewrite (reprNode_subRowsOf h' row _ Hnode'). cbn.
    by rewrite roots_orderForest, stableSort_perm.
  - by rewrite (reprNode_subRowsOf h' row None Hnode').
Qed.

Lemma forest_rows_keep_their_subRows_witness :
  (forest store 0 storeForest
   ∧ sortData builtins (table false false) 2 store 0%nat
     = Some (storeSorted, 2%nat))
  ∧ subRowsOf store 0 = Some [2; 3]%nat
  ∧ ∃ l', subRowsOf storeSorted 0 = Some l' ∧ l' ≡ₚ [2; 3]%nat.
Proof.
  assert (forest store 0 storeForest) as Hforest.
  { split; [split; [reflexivity|]|].
    - repeat constructor.
      + eapply (repr_inner _ _ _ 1%nat); [reflexivity..|].
        repeat constructor; by eapply repr_leaf.
      + by eapply repr_leaf.
    - by apply (bool_decide_unpack _). }
  assert (sortData builtins (table false false) 2 store 0%nat
          = Some (storeSorted, 2%nat)) as Hcall by (vm_compute; reflexivity).
  split; [done|]. split; [reflexivity|].
  pose proof (forest_rows_keep_their_subRows builtins (table false false) 2
                store 0%nat storeForest storeCompare storeSorted 2%nat
                eq_refl eq_refl Hforest ltac:(vm_compute; lia) Hcall 0%nat)
    as Hkeep.
  change (subRowsOf store 0) with (Some [2; 3]%nat) in Hkeep.
  destruct (subRowsOf storeSorted 0) as [l'|]; [|destruct Hkeep; by left].
  exists l'. split; [done|]. apply Hkeep. by left.
Defined.




(** X20. What [sortInverted] does to the order: with the built-in
    composition and a comparator that does not look at its direction
    argument, a single criterion on an inverted column with [desc]
    orders a level exactly as the same criterion on the column not
    inverted with [!desc]. *)
Theorem inverted_orders_as_flipped_desc
    sortTypes inst1 inst2 id column1 column2 d h arr :
  orderByFn inst1 = None →
  orderByFn inst2 = None →
  sortBy inst1 = [Sort.mk id (Some d)] →
  sortBy inst2 = [Sort.mk id (Some (negb d))] →
  find (λ c, Column.id c = id) (columns inst1) = Some column1 →
  find (λ c, Column.id c = id) (columns inst2) = Some column2 →
  truthy (Column.sortInverted column1) = true →
  truthy (Column.sortInverted column2) = false →
  (∀ x y dir1 dir2,
      sortMethod sortTypes inst1 (Column.sortType column1) x y dir1
      = sortMethod sortTypes inst2 (Column.sortType column2) x y dir2) →
  orderLevel sortTypes inst1 h arr = orderLevel sortTypes inst2 h arr.
Proof.
  intros Hfn1 Hfn2 Hs1 Hs2 Hc1 Hc2 Hinv1 Hinv2 Hcmp.
  unfold orderLevel. rewrite Hfn1, Hfn2, Hs1, Hs2. cbn.
  unfold sortFn, direction. cbn [Sort.id Sort.desc].
  rewrite Hc1, Hc2. cbn. rewrite Hinv1, Hinv2. cbn. f_equal.
  unfold defaultOrderByFn.
  destruct d; cbn; apply stableSort_ext; intros x y _ _; cbn;
    by erewrite Hcmp.
Qed.

Lemma inverted_orders_as_flipped_desc_witness :
  orderLevel builtins tableInverted store [0; 1]%nat = Some [1; 0]%nat
  ∧ orderLevel builtins (table false false) store [0; 1]%nat
    = Some [1; 0]%nat.
Proof.
  split; [|reflexivity].
  rewrite (inverted_orders_as_flipped_desc builtins tableInverted
             (table false false) "A" colAInverted colA true store
             [0; 1]%nat); done.
Defined.

(** * The multi-sort click cycle *)

Lemma filter_others_fresh columnID (l : list Sort.t) :
  sorted l columnID = None → filter (λ s, Sort.id s ≠ columnID) l = l.
Proof.
  intros Hfresh%find_None. induction Hfresh as [|s l Hs _ IH]; [done|].
  rewrite filter_cons, decide_True by done. by rewrite IH.
Qed.

(** A multi toggle without direction of the column whose criterion is the
    last one and the only one of that column. *)
Lemma toggle_multi_last inst columnID column old d :
  disableMultiSort inst = false →
  find (λ c, Column.id c = columnID) (columns inst) = Some column →
  sorted old columnID = None →
  toggleSortBy inst columnID None true (old ++ [Sort.mk columnID d])
  = Some (if negb (disableSortRemove inst)
             && negb (disableMultiRemove inst)
             && ((truthy d && not_ (Column.sortDescFirst column))
                 || (not_ d && truthy (Column.sortDescFirst column)))
          then old
          else old ++ [Sort.mk columnID (Some (not_ d))]).
Proof.
  intros Hmulti Hcol Hfresh.
  assert (sorted (old ++ [Sort.mk columnID d]) columnID
          = Some (Sort.mk columnID d)) as He.
  { by rewrite sorted_app, Hfresh, sorted_singleton. }
  unfold toggleSortBy, resolve. rewrite Hcol. cbn [mbind option_bind].
  rewrite (classify_present inst _ columnID true)
    by (rewrite ?He, ?Hmulti; by eauto).
  unfold sorted in He. rewrite He.
  cbn [isToggle isDefined negb andb mbind option_bind Sort.desc].
  assert (apply Toggle (Column.sortDescFirst column)
            (old ++ [Sort.mk columnID d]) columnID None
          = Some (old ++ [Sort.mk columnID (Some (not_ d))])) as Htoggle.
  { erewrite apply_Toggle by exact He. rewrite fmap_app. cbn.
    rewrite decide_True by done. do 2 f_equal. apply fmap_fixed.
    apply find_None in Hfresh. eapply Forall_impl; [exact Hfresh|].
    intros s Hs. cbn. by rewrite decide_False. }
  assert (apply Remove (Column.sortDescFirst column)
            (old ++ [Sort.mk columnID d]) columnID None = Some old)
    as Hremove.
  { unfold apply.
    by rewrite filter_app, filter_others_singleton, app_nil_r,
         filter_others_fresh. }
  destruct (disableSortRemove inst), (disableMultiRemove inst);
    cbn [negb andb mbind option_bind]; try done.
  by destruct (_ || _).
Qed.

(** X21. The click cycle in multi-sort mode is a round trip: with
    multi-sort and removal enabled, three successive multi toggles without
    direction of a column that has no criterion give back the list they
    started from, whatever the other criteria and [sortDescFirst] are.
    In between the column holds the lowest priority, first with
    [desc: sortDescFirst], then with [desc: !sortDescFirst]. *)
Theorem multi_click_cycle_round_trip inst columnID column old :
  disableMultiSort inst = false →
  disableSortRemove inst = false →
  disableMultiRemove inst = false →
  find (λ c, Column.id c = columnID) (columns inst) = Some column →
  sorted old columnID = None →
  toggles inst columnID None true 1 old
  = Some (old ++ [Sort.mk columnID (Column.sortDescFirst column)])
  ∧ toggles inst columnID None true 2 old
    = Some (old ++ [Sort.mk columnID
                      (Some (not_ (Column.sortDescFirst column)))])
  ∧ toggles inst columnID None true 3 old = Some old.
Proof.
  intros Hmulti Hsr Hmr Hcol Hfresh.
  assert (toggleSortBy inst columnID None true old
          = Some (old ++ [Sort.mk columnID (Column.sortDescFirst column)]))
    as H1.
  { unfold toggleSortBy, resolve, classify. unfold sorted in Hfresh.
    rewrite Hcol, Hfresh, Hmulti. reflexivity. }
  assert (toggleSortBy inst columnID None true
            (old ++ [Sort.mk columnID (Column.sortDescFirst column)])
          = Some (old ++ [Sort.mk columnID
                            (Some (not_ (Column.sortDescFirst column)))]))
    as H2.
  { rewrite (toggle_multi_last inst columnID column) by done.
    rewrite Hsr, Hmr. by destruct (Column.sortDescFirst column) as [[]|]. }
  assert (toggleSortBy inst columnID None true
            (old ++ [Sort.mk columnID
                       (Some (not_ (Column.sortDescFirst column)))])
          = Some old) as H3.
  { rewrite (toggle_multi_last inst columnID column) by done.
    rewrite Hsr, Hmr. by destruct (Column.sortDescFirst column) as [[]|]. }
  unfold toggles. split_and!; cbn; rewrite H1; cbn; [done|..];
    rewrite H2; cbn; [done|]. by rewrite H3.
Qed.

Lemma multi_click_cycle_round_trip_witness :
  sorted [Sort.mk "A" (Some true)] "B" = None
  ∧ toggles (table false false) "B" None true 3 [Sort.mk "A" (Some true)]
    = Some [Sort.mk "A" (Some true)].
Proof.
  split; [reflexivity|].
  by destruct (multi_click_cycle_round_trip (table false false) "B" colB
                 [Sort.mk "A" (Some true)] eq_refl eq_refl eq_refl eq_refl
                 eq_refl) as (_ & _ & ->).
Defined.
